(** * Thai reading-order analysis: the foundation container model

    A shallow embedding of [ThaiReadingOrderAnalyzer] (thai_reading_order.py)
    and the properties of its segmentation search.

    Conventions of the embedding:
    - a Python [str] is a list of Unicode code points ([char := N]); the
      placeholders ['x'] and ['f'] are the code points 120 and 102;
    - text indices are [Z] (start offsets range over [-5 ..]); counters of
      consonants are [nat];
    - a Python set of positions is a [gset Z];
    - a dict with fixed keys is a record, [None] is [option]'s [None];
    - a function that may return [None] returns [result (option _)]:
      [Ok None] is the Python [None], [Raise IndexError] is a subscript
      [text[i]] evaluated outside [0, len text) (every subscript goes through
      [char_at], so a run that never raises never reads out of bounds), and
      [Raise FuelExhausted] is the recursion of [explore_segmentations] running out of the
      fuel given to the model;
    - limits of the interpreter (recursion depth, memory) are not part of
      the embedding. *)

From stdpp Require Import gmap list.

Local Open Scope Z_scope.

(** ** Values *)

Definition char := N.

Definition sym_x : char := 120%N.
Definition sym_f : char := 102%N.

Definition len {A} (l : list A) : Z := Z.of_nat (length l).

Inductive exn := IndexError | FuelExhausted.

Inductive result (A : Type) :=
| Ok (a : A)
| Raise (e : exn).
Arguments Ok {A} a.
Arguments Raise {A} e.

Definition bind {A B} (r : result A) (k : A → result B) : result B :=
  match r with
  | Ok a => k a
  | Raise e => Raise e
  end.

Notation "'let*' x := r 'in' k" := (bind r (λ x, k))
  (at level 10, x name, r at level 100, k at level 200).

(** [for a in l: body] where the body only appends to an output list:
    the appended items, in order. *)
Fixpoint for_each {A B} (l : list A) (body : A → result (list B)) : result (list B) :=
  match l with
  | [] => Ok []
  | a :: l' =>
      let* out := body a in
      let* rest := for_each l' body in
      Ok (out ++ rest)
  end.

(** [text[i]] for [0 <= i < len text], nothing elsewhere. *)
Definition text_get (text : list char) (i : Z) : option char :=
  if decide (0 ≤ i) then text !! Z.to_nat i else None.

(** The subscript [text[i]] as the matcher uses it. *)
Definition char_at (text : list char) (i : Z) : result char :=
  match text_get text i with
  | Some c => Ok c
  | None => Raise IndexError
  end.

(** The foundation dict: [{'consonants', 'tone', 'tone_owner', 'positions'}]. *)
Record Foundation := mkFoundation {
  consonants : list char;
  tone : option char;
  tone_owner : option nat;
  positions : list Z
}.

(** The dict returned by [try_match_pattern_with_foundation]. *)
Record Match := mkMatch {
  m_pattern : list char;
  m_foundation : option Foundation;
  m_vowel_text : list char;
  m_final : option Foundation;
  m_positions : list Z
}.

(** The syllable dict built in [explore_segmentations]. *)
Record Syllable := mkSyllable {
  syl_foundation : option Foundation;
  syl_vowel : list char;
  syl_final : option Foundation;
  syl_pattern : list char
}.

(** One entry of ['readings']. *)
Record Reading := mkReading {
  syllables : list Syllable;
  reading_order : list (list char);
  matched_text : list char
}.

(** The dict returned by [findThaiGraphemeOrderDomain]. *)
Record Analysis := mkAnalysis {
  res_text : list char;
  readings : list Reading;
  is_ambiguous : bool;
  unmatched : list Z
}.

(** The analyzer object ([self]). *)
Record ThaiReadingOrderAnalyzer := mkAnalyzer {
  foundation : gset char;
  vowel_patterns : list (list char);
  tone_marks : gset char
}.

(** [self.tone_marks] as [__init__] sets it: mai ek, mai tho, mai tri,
    mai chattawa. *)
Definition thai_tone_marks : gset char :=
  {[ 3656%N; 3657%N; 3658%N; 3659%N ]}.

Definition init (foundation_data : list char) (patterns : list (list char))
  : ThaiReadingOrderAnalyzer :=
  {| foundation := list_to_set foundation_data;
     vowel_patterns := patterns;
     tone_marks := thai_tone_marks |}.

#[global] Instance Foundation_eq_dec : EqDecision Foundation.
Proof. solve_decision. Defined.
#[global] Instance Match_eq_dec : EqDecision Match.
Proof. solve_decision. Defined.
#[global] Instance Syllable_eq_dec : EqDecision Syllable.
Proof. solve_decision. Defined.

(** ** match_foundation *)

(** The body of the [while] loop of [match_foundation]. [remaining] is
    [consonant_count - consonants_found]: the loop guard
    [consonants_found < consonant_count] is [remaining] being a successor,
    and the test [consonants_found != consonant_count] after the loop fails
    exactly when the loop stopped on [idx >= len(text)] with a successor
    left. *)
Fixpoint foundation_loop (self : ThaiReadingOrderAnalyzer) (text : list char)
    (remaining consonants_found : nat) (idx : Z) (fd : Foundation)
  : result (option Foundation) :=
  match remaining with
  | O => Ok (Some fd)
  | S remaining' =>
      if decide (idx < len text) then
        let* c := char_at text idx in
        if decide (c ∈ foundation self) then
          let fd1 := {| consonants := consonants fd ++ [c];
                        tone := tone fd;
                        tone_owner := tone_owner fd;
                        positions := positions fd ++ [idx] |} in
          let current_consonant_idx := consonants_found in
          let idx1 := idx + 1 in
          if decide (idx1 < len text) then
            let* t := char_at text idx1 in
            if decide (t ∈ tone_marks self) then
              foundation_loop self text remaining' (S consonants_found) (idx1 + 1)
                {| consonants := consonants fd1;
                   tone := Some t;
                   tone_owner := Some current_consonant_idx;
                   positions := positions fd1 ++ [idx1] |}
            else
              foundation_loop self text remaining' (S consonants_found) idx1 fd1
          else
            foundation_loop self text remaining' (S consonants_found) idx1 fd1
        else Ok None
      else Ok None
  end.

Definition match_foundation (self : ThaiReadingOrderAnalyzer) (text : list char)
    (start_pos : Z) (consonant_count : nat) : result (option Foundation) :=
  if decide (start_pos < 0 ∨ len text ≤ start_pos) then Ok None
  else
    foundation_loop self text consonant_count 0%nat start_pos
      {| consonants := []; tone := None; tone_owner := None; positions := [] |}.

(** ** try_match_pattern_with_foundation *)

(** [positions[-1] + 1 if positions else text_idx + 1]. *)
Definition cursor_after (fd : Foundation) (text_idx : Z) : Z :=
  match last (positions fd) with
  | Some p => p + 1
  | None => text_idx + 1
  end.

(** The [while pattern_idx < len(pattern)] loop, on the symbols that remain;
    [acc] carries [foundation], [final_foundation], [vowel_text] and
    [positions], and the pattern for the dict that is returned. The loop
    leaves by [return None] or with [pattern_idx = len(pattern)], so the test
    [pattern_idx != len(pattern)] that follows it never fires. *)
Fixpoint match_loop (self : ThaiReadingOrderAnalyzer) (text : list char)
    (cluster_size : nat) (symbols : list char) (text_idx : Z) (acc : Match)
  : result (option Match) :=
  match symbols with
  | [] => Ok (Some acc)
  | p_char :: symbols' =>
      if decide (text_idx < 0 ∨ len text ≤ text_idx) then Ok None
      else if decide (p_char = sym_x) then
        let* foundation_result := match_foundation self text text_idx cluster_size in
        match foundation_result with
        | None => Ok None
        | Some fd =>
            match_loop self text cluster_size symbols' (cursor_after fd text_idx)
              {| m_pattern := m_pattern acc;
                 m_foundation := Some fd;
                 m_vowel_text := m_vowel_text acc;
                 m_final := m_final acc;
                 m_positions := m_positions acc ++ positions fd |}
        end
      else if decide (p_char = sym_f) then
        let* final_result := match_foundation self text text_idx 1%nat in
        match final_result with
        | None => Ok None
        | Some fd =>
            match_loop self text cluster_size symbols' (cursor_after fd text_idx)
              {| m_pattern := m_pattern acc;
                 m_foundation := m_foundation acc;
                 m_vowel_text := m_vowel_text acc;
                 m_final := Some fd;
                 m_positions := m_positions acc ++ positions fd |}
        end
      else if decide (0 ≤ text_idx ∧ text_idx < len text) then
        let* c := char_at text text_idx in
        if decide (c = p_char) then
          match_loop self text cluster_size symbols' (text_idx + 1)
            {| m_pattern := m_pattern acc;
               m_foundation := m_foundation acc;
               m_vowel_text := m_vowel_text acc ++ [c];
               m_final := m_final acc;
               m_positions := m_positions acc ++ [text_idx] |}
        else Ok None
      else Ok None
  end.

(** [used] is a parameter of the source function that its body never reads. *)
Definition try_match_pattern_with_foundation (self : ThaiReadingOrderAnalyzer)
    (text : list char) (start_pos : Z) (pattern : list char) (used : gset Z)
    (cluster_size : nat) : result (option Match) :=
  match_loop self text cluster_size pattern start_pos
    {| m_pattern := pattern;
       m_foundation := None;
       m_vowel_text := [];
       m_final := None;
       m_positions := [] |}.

(** ** find_pattern_matches *)

(** [any(pos in used for pos in positions)]. *)
Definition conflicts (used : gset Z) (ps : list Z) : bool :=
  existsb (λ pos, bool_decide (pos ∈ used)) ps.

Definition find_pattern_matches (self : ThaiReadingOrderAnalyzer)
    (text pattern : list char) (used : gset Z) : result (list Match) :=
  let has_x := bool_decide (sym_x ∈ pattern) in
  for_each (seqZ (-5) (len text + 5)) (λ start_pos,
    if has_x then
      let max_cluster := Nat.min 3 (length text) in
      for_each (seq 1 max_cluster) (λ cluster_size,
        let* r := try_match_pattern_with_foundation self text start_pos pattern
                    used cluster_size in
        match r with
        | Some m => if conflicts used (m_positions m) then Ok [] else Ok [m]
        | None => Ok []
        end)
    else
      let* r := try_match_pattern_with_foundation self text start_pos pattern
                  used 0%nat in
      match r with
      | Some m => if conflicts used (m_positions m) then Ok [] else Ok [m]
      | None => Ok []
      end).

(** ** findThaiGraphemeOrderDomain *)

Definition syllable_of_match (m : Match) : Syllable :=
  {| syl_foundation := m_foundation m;
     syl_vowel := m_vowel_text m;
     syl_final := m_final m;
     syl_pattern := m_pattern m |}.

(** [while pos < text_len and pos in used: pos += 1], run for at most
    [steps] iterations. *)
Fixpoint skip_used (text_len : Z) (used : gset Z) (steps : nat) (pos : Z) : Z :=
  match steps with
  | O => pos
  | S steps' =>
      if decide (pos < text_len ∧ pos ∈ used)
      then skip_used text_len used steps' (pos + 1)
      else pos
  end.

(** The inner function [explore_segmentations]; its result is the list of
    readings it appends to [all_readings], in order. *)
Fixpoint explore_segmentations (self : ThaiReadingOrderAnalyzer) (text : list char)
    (fuel : nat) (pos : Z) (used : gset Z) (current_reading : list Syllable)
  : result (list (list Syllable)) :=
  match fuel with
  | O => Raise FuelExhausted
  | S fuel' =>
      if decide (size used = length text) then
        if decide (length current_reading = 1%nat)
        then Ok [current_reading]
        else Ok []
      else
        let pos := skip_used (len text) used (Z.to_nat (len text - pos)) pos in
        if decide (len text ≤ pos) then Ok []
        else
          for_each (vowel_patterns self) (λ pattern,
            let* matches := find_pattern_matches self text pattern used in
            for_each matches (λ m,
              if decide (pos ∈ m_positions m) then
                let syllable := syllable_of_match m in
                let new_used := used ∪ list_to_set (m_positions m) in
                let new_reading := current_reading ++ [syllable] in
                explore_segmentations self text fuel' 0 new_used new_reading
              else Ok []))
  end.

(** [explore_segmentations(0, set(), [])]. *)
Definition all_readings (self : ThaiReadingOrderAnalyzer) (text : list char)
  : result (list (list Syllable)) :=
  explore_segmentations self text (S (length text)) 0 ∅ [].

Definition render_foundation (fd : option Foundation) : list char :=
  match fd with
  | None => []
  | Some fd =>
      mjoin (imap (λ i consonant,
        match tone fd with
        | Some t => if decide (tone_owner fd = Some i) then [consonant; t] else [consonant]
        | None => [consonant]
        end) (consonants fd))
  end.

Definition syllable_tokens (syllable : Syllable) : list (list char) :=
  let foundation_text := render_foundation (syl_foundation syllable) in
  (if decide (foundation_text = []) then [] else [foundation_text])
  ++ (if decide (syl_vowel syllable = []) then [] else [syl_vowel syllable])
  ++ (match syl_final syllable with
      | Some fd => [render_foundation (Some fd)]
      | None => []
      end).

Definition build_reading (reading : list Syllable) : Reading :=
  let order := mjoin (syllable_tokens <$> reading) in
  {| syllables := reading;
     reading_order := order;
     matched_text := mjoin order |}.

(** The deduplication loop. The source keys [seen] by [str(reading)]; the
    text of a list of dicts with these fixed keys determines every field
    (lists of one-character strings, integers and [None] print injectively),
    so two keys are equal exactly when the readings are equal as values,
    container position lists included. *)
Fixpoint unique_loop (seen : list (list Syllable)) (raw : list (list Syllable))
  : list Reading :=
  match raw with
  | [] => []
  | reading :: raw' =>
      if decide (reading ∈ seen) then unique_loop seen raw'
      else build_reading reading :: unique_loop (reading :: seen) raw'
  end.

Definition findThaiGraphemeOrderDomain (self : ThaiReadingOrderAnalyzer)
    (text : list char) : result Analysis :=
  match text with
  | [] => Ok {| res_text := text; readings := []; is_ambiguous := false; unmatched := [] |}
  | _ :: _ =>
      let* raw := all_readings self text in
      let unique_readings := unique_loop [] raw in
      Ok {| res_text := text;
            readings := unique_readings;
            is_ambiguous := bool_decide (1 < length unique_readings)%nat;
            unmatched := [] |}
  end.

Definition analyze_text := findThaiGraphemeOrderDomain.

(** ** Sample data *)

Module Sample.
Definition yo : char := 3618%N.      (* ย *)
Definition aa : char := 3634%N.      (* า *)
Definition ko : char := 3585%N.      (* ก *)
Definition kho : char := 3586%N.     (* ข *)
Definition do_ : char := 3604%N.     (* ด *)
Definition lo : char := 3621%N.      (* ล *)
Definition wo : char := 3623%N.      (* ว *)
Definition o : char := 3629%N.       (* อ *)
Definition e : char := 3648%N.       (* เ *)
Definition taikhu : char := 3655%N.  (* ็ *)
Definition mai_ek : char := 3656%N.  (* ่ *)
Definition mai_tho : char := 3657%N. (* ้ *)

Definition analyzer : ThaiReadingOrderAnalyzer :=
  init [yo; ko; kho; do_; lo; wo; o]
       [[sym_x; aa]; [e; sym_x; taikhu; sym_f]; [e; sym_x; wo];
        [e; sym_x; sym_f]; [e; sym_x]].

(** An analyzer whose catalog holds the empty template only. *)
Definition bare : ThaiReadingOrderAnalyzer := init [] [[]].

Definition no_analysis : Analysis :=
  {| res_text := []; readings := []; is_ambiguous := false; unmatched := [] |}.

Definition analysis_of (r : result Analysis) : Analysis :=
  match r with
  | Ok res => res
  | Raise _ => no_analysis
  end.

Definition no_match : Match :=
  {| m_pattern := []; m_foundation := None; m_vowel_text := [];
     m_final := None; m_positions := [] |}.

Definition match_of (r : result (option Match)) : Match :=
  match r with
  | Ok (Some m) => m
  | _ => no_match
  end.

Definition no_container : Foundation :=
  {| consonants := []; tone := None; tone_owner := None; positions := [] |}.

Definition container_of (r : result (option Foundation)) : Foundation :=
  match r with
  | Ok (Some fd) => fd
  | _ => no_container
  end.

(** "ยา" *)
Definition ya : list char := [yo; aa].
Definition ya_analysis : Analysis :=
  Eval vm_compute in analysis_of (findThaiGraphemeOrderDomain analyzer ya).
Definition ya_match : Match :=
  Eval vm_compute in
    match_of (try_match_pattern_with_foundation analyzer ya 0 [sym_x; aa] ∅ 1).
Definition ya_syllable : Syllable := Eval vm_compute in syllable_of_match ya_match.
Definition ya_reading : Reading := Eval vm_compute in build_reading [ya_syllable].

(** "อย่า": a tone mark after the second consonant of the group. *)
Definition yaa : list char := [o; yo; mai_ek; aa].
Definition yaa_analysis : Analysis :=
  Eval vm_compute in analysis_of (findThaiGraphemeOrderDomain analyzer yaa).
Definition yaa_match : Match :=
  Eval vm_compute in
    match_of (try_match_pattern_with_foundation analyzer yaa 0 [sym_x; aa] ∅ 2).
Definition yaa_matches : list Match :=
  Eval vm_compute in
    match find_pattern_matches analyzer yaa [sym_x; aa] ∅ with
    | Ok ms => ms
    | Raise _ => []
    end.
Definition yaa_container : Foundation :=
  Eval vm_compute in container_of (match_foundation analyzer yaa 0 2).

(** "เลว": three readings. *)
Definition elw : list char := [e; lo; wo].
Definition elw_analysis : Analysis :=
  Eval vm_compute in analysis_of (findThaiGraphemeOrderDomain analyzer elw).

(** The sample catalog in another order, one pattern twice. *)
Definition shuffled : ThaiReadingOrderAnalyzer :=
  init [yo; ko; kho; do_; lo; wo; o]
       [[e; sym_x]; [e; sym_x; sym_f]; [sym_x; aa]; [e; sym_x; wo];
        [e; sym_x; taikhu; sym_f]; [e; sym_x]].
Definition elw_shuffled_analysis : Analysis :=
  Eval vm_compute in analysis_of (findThaiGraphemeOrderDomain shuffled elw).




(** "ยาz": a character that is in no set and in no pattern. *)
Definition ya_z : list char := [yo; aa; 122%N].
Definition ya_z_analysis : Analysis :=
  Eval vm_compute in analysis_of (findThaiGraphemeOrderDomain analyzer ya_z).

(** "ก่ข้": two toned consonants in one group. *)
Definition two_tones : list char := [ko; mai_ek; kho; mai_tho].
Definition two_tones_container : Foundation :=
  Eval vm_compute in container_of (match_foundation analyzer two_tones 0 2).
End Sample.

(** ** Layout of a consonant group in the text

    Where [match_foundation] finds the consonants of a group that starts at
    [start]: a consonant at [q] is toned when [text[q+1]] is a tone mark, and
    the next consonant then sits at [q+2] instead of [q+1]. *)

Definition tone_after (self : ThaiReadingOrderAnalyzer) (text : list char)
    (q : Z) : option char :=
  match text_get text (q + 1) with
  | Some t => if decide (t ∈ tone_marks self) then Some t else None
  | None => None
  end.

Definition next_consonant (self : ThaiReadingOrderAnalyzer) (text : list char)
    (q : Z) : Z :=
  match tone_after self text q with
  | Some _ => q + 2
  | None => q + 1
  end.

(** Text position of consonant number [k] of the group. *)
Fixpoint consonant_pos (self : ThaiReadingOrderAnalyzer) (text : list char)
    (start : Z) (k : nat) : Z :=
  match k with
  | O => start
  | S k' => consonant_pos self text (next_consonant self text start) k'
  end.

(** How many of the first [n] consonants of the group are toned. *)
Fixpoint toned_count (self : ThaiReadingOrderAnalyzer) (text : list char)
    (start : Z) (n : nat) : nat :=
  match n with
  | O => 0
  | S n' =>
      ((match tone_after self text start with Some _ => 1 | None => 0 end)
       + toned_count self text (next_consonant self text start) n')%nat
  end.

(** One iteration of the loop of [match_foundation] on the container. *)
Definition fd_step (fd : Foundation) (consonants_found : nat) (idx : Z)
    (c : char) (t : option char) : Foundation :=
  {| consonants := consonants fd ++ [c];
     tone := match t with Some _ => t | None => tone fd end;
     tone_owner := match t with Some _ => Some consonants_found | None => tone_owner fd end;
     positions := positions fd ++ idx :: match t with Some _ => [idx + 1] | None => [] end |}.

(** ** Cluster sizes tried *)

(** The cluster sizes [find_pattern_matches] tries for a pattern:
    [range(1, min(3, len(text)) + 1)] when it contains ['x'], the single
    size [0] otherwise. *)
Definition cluster_sizes (text pattern : list char) : list nat :=
  if decide (sym_x ∈ pattern) then seq 1 (Nat.min 3 (length text)) else [0%nat].

(** ** Positions of a text *)

(** Every position of the text: [{0, ..., len(text) - 1}]. *)
Definition all_positions (text : list char) : gset Z :=
  list_to_set (seqZ 0 (len text)).

(** The positions a syllable of a reading consumed: those of a match of its
    pattern that builds this syllable. *)
Definition consumes (self : ThaiReadingOrderAnalyzer) (text : list char)
    (syllable : Syllable) (ps : list Z) : Prop :=
  ∃ start cluster used m,
    try_match_pattern_with_foundation self text start (syl_pattern syllable)
      used cluster = Ok (Some m)
    ∧ syllable_of_match m = syllable
    ∧ m_positions m = ps.

(** ** Structural equality of readings

    Equality of syllables on template, container contents (consonants, tone,
    tone owner) and vowel text, container position lists left out. *)

Definition same_container (a b : option Foundation) : Prop :=
  match a, b with
  | Some fa, Some fb =>
      consonants fa = consonants fb ∧ tone fa = tone fb
      ∧ tone_owner fa = tone_owner fb
  | None, None => True
  | _, _ => False
  end.

Definition same_syllable (a b : Syllable) : Prop :=
  syl_pattern a = syl_pattern b
  ∧ same_container (syl_foundation a) (syl_foundation b)
  ∧ syl_vowel a = syl_vowel b
  ∧ same_container (syl_final a) (syl_final b).

Definition same_reading (r1 r2 : list Syllable) : Prop :=
  Forall2 same_syllable r1 r2.

#[global] Instance same_container_dec a b : Decision (same_container a b).
Proof. destruct a, b; simpl; apply _. Defined.
#[global] Instance same_syllable_dec a b : Decision (same_syllable a b).
Proof. unfold same_syllable. apply _. Defined.
#[global] Instance same_reading_dec r1 r2 : Decision (same_reading r1 r2).
Proof. unfold same_reading. apply _. Defined.


(** ** Well-formed containers

    What the foundation invariant asks of a container bound in [text]: its
    consonants are foundation characters, and a recorded tone is a tone mark
    that sits in the text right after the owner consonant, both positions
    being among those of the container. The owner's position is the one
    the group layout gives to consonant number [tone_owner]. *)
Definition container_ok (self : ThaiReadingOrderAnalyzer) (text : list char)
    (fd : Foundation) : Prop :=
  Forall (λ c, c ∈ foundation self) (consonants fd)
  ∧ ∀ t, tone fd = Some t →
      t ∈ tone_marks self
      ∧ ∃ k c start q,
          tone_owner fd = Some k
          ∧ consonants fd !! k = Some c
          ∧ head (positions fd) = Some start
          ∧ q = consonant_pos self text start k
          ∧ text_get text q = Some c
          ∧ text_get text (q + 1) = Some t
          ∧ q ∈ positions fd
          ∧ q + 1 ∈ positions fd.

(** ** Slices and literals *)

(** [text[start : start + k]], for [0 <= start]. *)
Definition text_slice (text : list char) (start k : Z) : list char :=
  take (Z.to_nat k) (drop (Z.to_nat start) text).

(** The literal symbols of a pattern: all but ['x'] and ['f']. *)
Definition literals (pattern : list char) : list char :=
  filter (λ c, c ≠ sym_x ∧ c ≠ sym_f) pattern.

(** ** The text of a match *)

(** What [findThaiGraphemeOrderDomain] joins into ['matched_text'] for the
    syllable of a match: rendered foundation, vowel text, rendered final. *)
Definition match_text (m : Match) : list char :=
  render_foundation (m_foundation m) ++ m_vowel_text m
  ++ render_foundation (m_final m).

(** A container that renders to as many characters as it has positions. *)
Definition lossless (fd : option Foundation) : Prop :=
  ∀ fd', fd = Some fd' →
    length (render_foundation (Some fd')) = length (positions fd').

(** A symbol that occurs once at most in a pattern. *)
Definition at_most_once (c : char) (pattern : list char) : Prop :=
  (length (filter (λ y, y = c) pattern) ≤ 1)%nat.

(** ** Covering matches *)

(** A match of a catalog pattern at offset [0], with a cluster size the
    search tries, that consumes the whole text. *)
Definition covers (self : ThaiReadingOrderAnalyzer) (text : list char)
    (pattern : list char) (cluster : nat) (m : Match) : Prop :=
  pattern ∈ vowel_patterns self
  ∧ cluster ∈ cluster_sizes text pattern
  ∧ try_match_pattern_with_foundation self text 0 pattern ∅ cluster = Ok (Some m)
  ∧ m_positions m = seqZ 0 (len text).

(** ** The labeling application

    The entry that [generate_interpretations] (thai_labeling_app.py) builds
    for each syllable of a reading, before validation and storage:
    ['foundation'] and ['final'] become the consonant lists of the
    containers, and ['reading_order'] holds the joined consonants, the vowel
    if it is not empty, and the joined consonants of the final. The
    containers are those of the analyzer, dicts with a ['consonants'] key, so
    the [str(...)] branches of the source are not taken; joining a list of
    one-character strings gives the list of characters itself. *)
Record SyllableData := mkSyllableData {
  sd_foundation : option (list char);
  sd_vowel : list char;
  sd_final : option (list char);
  sd_pattern : list char;
  sd_reading_order : list (list char)
}.

Definition syl_data (syllable : Syllable) : SyllableData :=
  {| sd_foundation := consonants <$> syl_foundation syllable;
     sd_vowel := syl_vowel syllable;
     sd_final := consonants <$> syl_final syllable;
     sd_pattern := syl_pattern syllable;
     sd_reading_order :=
       (match syl_foundation syllable with
        | Some fd => [consonants fd]
        | None => []
        end)
       ++ (if decide (syl_vowel syllable = []) then [] else [syl_vowel syllable])
       ++ (match syl_final syllable with
           | Some fd => [consonants fd]
           | None => []
           end) |}.

(** ** The readings of a pattern *)

(** What one pattern contributes to the readings of a text: for each cluster
    size tried, in the order tried, the syllable of the match at offset [0]
    when that match consumes the whole text. *)
Definition pattern_readings (self : ThaiReadingOrderAnalyzer)
    (text pattern : list char) : list (list Syllable) :=
  cluster_sizes text pattern ≫= λ cluster,
    match try_match_pattern_with_foundation self text 0 pattern ∅ cluster with
    | Ok (Some m) =>
        if decide (m_positions m = seqZ 0 (len text))
        then [[syllable_of_match m]]
        else []
    | _ => []
    end.

(** ** Basic facts *)

Section lookup.
Context (text : list char).

Lemma text_get_Some i c : text_get text i = Some c → 0 ≤ i < len text.
Proof.
  unfold text_get, len. case_decide; [|done].
  intros Hlt%lookup_lt_Some. lia.
Qed.

Lemma text_get_is_Some i : 0 ≤ i < len text → is_Some (text_get text i).
Proof.
  unfold text_get, len. intros [? ?]. case_decide; [|lia].
  apply lookup_lt_is_Some. lia.
Qed.

Lemma text_get_None i : len text ≤ i → text_get text i = None.
Proof.
  intros ?. destruct (text_get text i) eqn:E; [|done].
  apply text_get_Some in E. lia.
Qed.

Lemma char_at_Ok i c : char_at text i = Ok c ↔ text_get text i = Some c.
Proof. unfold char_at. destruct (text_get text i); naive_solver. Qed.
End lookup.

(** ** The consonant group matcher *)

Section foundation_matcher.
Context (self : ThaiReadingOrderAnalyzer) (text : list char).

Lemma next_consonant_bounds q :
  q + 1 ≤ next_consonant self text q ≤ q + 2.
Proof. unfold next_consonant. destruct (tone_after self text q); lia. Qed.

Lemma tone_after_Some q t :
  tone_after self text q = Some t →
  text_get text (q + 1) = Some t ∧ t ∈ tone_marks self
  ∧ next_consonant self text q = q + 2.
Proof.
  unfold next_consonant, tone_after.
  destruct (text_get text (q + 1)) as [t'|]; [|done].
  case_decide; [|done]. naive_solver.
Qed.

Lemma consonant_pos_S start k :
  consonant_pos self text start (S k)
  = next_consonant self text (consonant_pos self text start k).
Proof. revert start. induction k as [|k IH]; intros start; [done|]. apply (IH _). Qed.

Lemma consonant_pos_mono start j k :
  (j ≤ k)%nat →
  consonant_pos self text start j + Z.of_nat (k - j)
  ≤ consonant_pos self text start k.
Proof.
  induction 1 as [|k Hle IH].
  - replace (j - j)%nat with 0%nat by lia. lia.
  - rewrite consonant_pos_S.
    pose proof (next_consonant_bounds (consonant_pos self text start k)).
    lia.
Qed.

Lemma consonant_pos_count start n :
  consonant_pos self text start n
  = start + Z.of_nat n + Z.of_nat (toned_count self text start n).
Proof.
  revert start. induction n as [|n IH]; intros start; simpl; [lia|].
  rewrite IH. unfold next_consonant.
  destruct (tone_after self text start); lia.
Qed.

(** One iteration of the loop, for a cursor that is not negative. *)
Lemma foundation_loop_unfold r found idx fd :
  0 ≤ idx →
  foundation_loop self text (S r) found idx fd =
    match text_get text idx with
    | Some c =>
        if decide (c ∈ foundation self) then
          foundation_loop self text r (S found) (next_consonant self text idx)
            (fd_step fd found idx c (tone_after self text idx))
        else Ok None
    | None => Ok None
    end.
Proof.
  intros Hidx. simpl. case_decide as Hlt.
  - destruct (text_get_is_Some text idx) as [c Hc]; [lia|].
    unfold char_at. rewrite Hc. simpl. case_decide; [|done].
    unfold next_consonant, tone_after, fd_step. case_decide as Hlt1.
    + destruct (text_get_is_Some text (idx + 1)) as [t Ht]; [lia|].
      rewrite Ht. simpl. case_decide; simpl.
      * replace (idx + 1 + 1) with (idx + 2) by lia.
        by rewrite <- (assoc_L (++)).
      * done.
    + rewrite (text_get_None text (idx + 1)) by lia. done.
  - by rewrite (text_get_None text idx) by lia.
Qed.

Lemma foundation_loop_no_raise r found idx fd e :
  0 ≤ idx → foundation_loop self text r found idx fd ≠ Raise e.
Proof.
  revert found idx fd. induction r as [|r IH]; intros found idx fd Hidx; [done|].
  rewrite foundation_loop_unfold by done.
  destruct (text_get text idx); [|done]. case_decide; [|done].
  apply IH. pose proof (next_consonant_bounds idx). lia.
Qed.

(** What a successful run of the loop adds to the container. *)
Lemma next_consonant_in_text q c :
  text_get text q = Some c → next_consonant self text q ≤ len text.
Proof.
  intros Hq%text_get_Some. unfold next_consonant.
  destruct (tone_after self text q) as [t|] eqn:Ht; [|lia].
  apply tone_after_Some in Ht as (Ht%text_get_Some & _). lia.
Qed.

Lemma foundation_loop_shape r found idx fd fd' :
  0 ≤ idx ≤ len text →
  foundation_loop self text r found idx fd = Ok (Some fd') →
  ∃ cs,
    consonants fd' = consonants fd ++ cs
    ∧ length cs = r
    ∧ (∀ j, (j < r)%nat → cs !! j = text_get text (consonant_pos self text idx j))
    ∧ Forall (λ c, c ∈ foundation self) cs
    ∧ positions fd' = positions fd ++ seqZ idx (consonant_pos self text idx r - idx)
    ∧ consonant_pos self text idx r ≤ len text.
Proof.
  revert found idx fd. induction r as [|r IH]; intros found idx fd Hidx.
  - simpl. intros [= <-]. exists []. rewrite !(right_id_L [] (++)).
    rewrite Z.sub_diag, seqZ_nil, (right_id_L [] (++)) by done.
    split_and!; try done; lia.
  - rewrite foundation_loop_unfold by lia.
    destruct (text_get text idx) as [c|] eqn:Hc; [|done].
    case_decide as Hin; [|done].
    pose proof (next_consonant_bounds idx) as Hn.
    pose proof (next_consonant_in_text _ _ Hc) as Hn'.
    intros (cs & Hcs & Hlen & Hget & Hall & Hpos & Hend)%IH; [|lia].
    exists (c :: cs). simpl in *. split_and!.
    + by rewrite Hcs, <- (assoc_L (++)).
    + by rewrite Hlen.
    + intros [|j] ?; simpl; [done|]. apply Hget. lia.
    + by constructor.
    + rewrite Hpos, <- (assoc_L (++)). f_equal.
      pose proof (consonant_pos_mono (next_consonant self text idx) 0 r) as Hm.
      simpl in Hm.
      replace (consonant_pos self text (next_consonant self text idx) r - idx)
        with ((next_consonant self text idx - idx)
              + (consonant_pos self text (next_consonant self text idx) r
                 - next_consonant self text idx)) by lia.
      rewrite seqZ_app by lia.
      replace (idx + (next_consonant self text idx - idx))
        with (next_consonant self text idx) by lia.
      f_equal. unfold next_consonant in *.
      destruct (tone_after self text idx); simpl.
      * replace (idx + 2 - idx) with 2 by lia.
        rewrite !seqZ_cons, seqZ_nil by lia. repeat f_equal; lia.
      * replace (idx + 1 - idx) with 1 by lia.
        rewrite !seqZ_cons, seqZ_nil by lia. done.
    + done.
Qed.

Lemma toned_count_zero start n j :
  toned_count self text start n = 0%nat → (j < n)%nat →
  tone_after self text (consonant_pos self text start j) = None.
Proof.
  revert start j. induction n as [|n IH]; intros start j Hz Hj; [lia|].
  simpl in Hz. destruct j as [|j]; simpl.
  - destruct (tone_after self text start); [lia|done].
  - apply IH; lia.
Qed.

(** The tone a successful run leaves in the container: the one after the
    last toned consonant, owned by that consonant. *)
Lemma foundation_loop_tone r found idx fd fd' :
  0 ≤ idx →
  foundation_loop self text r found idx fd = Ok (Some fd') →
  (toned_count self text idx r = 0%nat
   ∧ tone fd' = tone fd ∧ tone_owner fd' = tone_owner fd)
  ∨ (∃ j t, (j < r)%nat
     ∧ tone_after self text (consonant_pos self text idx j) = Some t
     ∧ (∀ j', (j < j' < r)%nat →
          tone_after self text (consonant_pos self text idx j') = None)
     ∧ tone fd' = Some t ∧ tone_owner fd' = Some (found + j)%nat).
Proof.
  revert found idx fd. induction r as [|r IH]; intros found idx fd Hidx.
  - simpl. intros [= <-]. by left.
  - rewrite foundation_loop_unfold by lia.
    destruct (text_get text idx) as [c|] eqn:Hc; [|done].
    case_decide as Hin; [|done].
    pose proof (next_consonant_bounds idx) as Hn.
    intros [(Hz & Ht & Ho)|(j & t & Hj & Hjt & Hlast & Ht & Ho)]%IH; [| |lia].
    + simpl in Ht, Ho. destruct (tone_after self text idx) as [t|] eqn:Hta.
      * right. exists 0%nat, t. split_and!; try done; [lia| |].
        -- intros [|j'] ?; [lia|]. simpl. apply toned_count_zero with r; [done|lia].
        -- by rewrite Nat.add_0_r.
      * left. simpl. by rewrite Hta, Hz.
    + right. exists (S j), t. simpl. split_and!; try done; [lia| |].
      * intros [|j'] ?; [lia|]. simpl. apply Hlast. lia.
      * rewrite Ho. f_equal. lia.
Qed.

Lemma match_foundation_no_raise start count e :
  match_foundation self text start count ≠ Raise e.
Proof.
  unfold match_foundation. case_decide; [done|].
  apply foundation_loop_no_raise. lia.
Qed.

Lemma match_foundation_start start count fd :
  match_foundation self text start count = Ok (Some fd) → 0 ≤ start < len text.
Proof. unfold match_foundation. case_decide; [done|lia]. Qed.

Lemma match_foundation_shape start count fd :
  match_foundation self text start count = Ok (Some fd) →
  length (consonants fd) = count
  ∧ (∀ j, (j < count)%nat →
       consonants fd !! j = text_get text (consonant_pos self text start j))
  ∧ Forall (λ c, c ∈ foundation self) (consonants fd)
  ∧ positions fd = seqZ start (consonant_pos self text start count - start)
  ∧ consonant_pos self text start count ≤ len text.
Proof.
  unfold match_foundation. case_decide; [done|].
  intros (cs & Hcs & ? & ? & ? & Hpos & ?)%foundation_loop_shape; [|lia].
  simpl in Hcs, Hpos. by subst cs.
Qed.

Lemma match_foundation_tone start count fd :
  match_foundation self text start count = Ok (Some fd) →
  (toned_count self text start count = 0%nat
   ∧ tone fd = None ∧ tone_owner fd = None)
  ∨ (∃ j t, (j < count)%nat
     ∧ tone_after self text (consonant_pos self text start j) = Some t
     ∧ (∀ j', (j < j' < count)%nat →
          tone_after self text (consonant_pos self text start j') = None)
     ∧ tone fd = Some t ∧ tone_owner fd = Some j).
Proof.
  unfold match_foundation. case_decide; [done|].
  intros Hloop%foundation_loop_tone; [|lia]. done.
Qed.

Lemma match_foundation_positions_length start count fd :
  match_foundation self text start count = Ok (Some fd) →
  length (positions fd) = (count + toned_count self text start count)%nat.
Proof.
  intros (_ & _ & _ & -> & _)%match_foundation_shape.
  rewrite length_seqZ, consonant_pos_count. lia.
Qed.
End foundation_matcher.

(** ** The template matcher *)

Section template_matcher.
Context (self : ThaiReadingOrderAnalyzer) (text : list char).

Lemma last_seqZ m n : 0 < n → last (seqZ m n) = Some (m + n - 1).
Proof.
  intros Hn. rewrite last_lookup, length_seqZ.
  rewrite lookup_seqZ_lt by lia. f_equal. lia.
Qed.

(** After a group of at least one consonant the cursor sits just past the
    group. *)
Lemma cursor_after_group start count fd :
  (1 ≤ count)%nat →
  match_foundation self text start count = Ok (Some fd) →
  cursor_after fd start = consonant_pos self text start count
  ∧ start < consonant_pos self text start count.
Proof.
  intros Hc (_ & _ & _ & Hpos & _)%match_foundation_shape.
  pose proof (consonant_pos_mono self text start 0 count) as Hm. simpl in Hm.
  unfold cursor_after. rewrite Hpos, last_seqZ by lia. split; lia.
Qed.

Lemma match_loop_out_of_range cluster p_char symbols text_idx acc :
  text_idx < 0 ∨ len text ≤ text_idx →
  match_loop self text cluster (p_char :: symbols) text_idx acc = Ok None.
Proof. intros ?. simpl. by case_decide. Qed.

Lemma match_loop_no_raise cluster symbols text_idx acc e :
  match_loop self text cluster symbols text_idx acc ≠ Raise e.
Proof.
  revert text_idx acc.
  induction symbols as [|p_char symbols IH]; intros text_idx acc; [done|].
  simpl. case_decide; [done|]. case_decide.
  - destruct (match_foundation self text text_idx cluster) as [[fd|]|e'] eqn:Hm;
      simpl; [apply IH|done|].
    by apply match_foundation_no_raise in Hm.
  - case_decide.
    + destruct (match_foundation self text text_idx 1) as [[fd|]|e'] eqn:Hm;
        simpl; [apply IH|done|].
      by apply match_foundation_no_raise in Hm.
    + case_decide; [|done].
      destruct (text_get_is_Some text text_idx) as [c Hc]; [lia|].
      unfold char_at. rewrite Hc. simpl. case_decide; [apply IH|done].
Qed.

(** A match consumes a run of consecutive positions that starts at the
    cursor, at least one position per symbol. *)
Lemma match_loop_positions cluster symbols text_idx acc m :
  (1 ≤ cluster)%nat ∨ sym_x ∉ symbols →
  match_loop self text cluster symbols text_idx acc = Ok (Some m) →
  ∃ k, len symbols ≤ k
    ∧ m_positions m = m_positions acc ++ seqZ text_idx k
    ∧ (symbols = [] → k = 0)
    ∧ (symbols ≠ [] → 0 ≤ text_idx ∧ text_idx + k ≤ len text).
Proof.
  revert text_idx acc.
  induction symbols as [|p_char symbols IH]; intros text_idx acc Hcl.
  { simpl. intros [= <-]. exists 0. rewrite seqZ_nil, (right_id_L [] (++)) by done.
    done. }
  assert ((1 ≤ cluster)%nat ∨ sym_x ∉ symbols) as Hcl'.
  { destruct Hcl as [?|[_ ?]%not_elem_of_cons]; auto. }
  assert (∀ q acc',
    text_idx < q ≤ len text → 0 ≤ text_idx →
    m_positions acc' = m_positions acc ++ seqZ text_idx (q - text_idx) →
    match_loop self text cluster symbols q acc' = Ok (Some m) →
    ∃ k, len (p_char :: symbols) ≤ k
      ∧ m_positions m = m_positions acc ++ seqZ text_idx k
      ∧ (p_char :: symbols = [] → k = 0)
      ∧ (p_char :: symbols ≠ [] → 0 ≤ text_idx ∧ text_idx + k ≤ len text))
    as Hadvance.
  { intros q acc' Hq Hidx Hacc' Hrest.
    apply IH in Hrest as (k & Hk & Hm & Hnil & Hin); [|done].
    exists ((q - text_idx) + k). unfold len in *. simpl length.
    split_and!; [lia| |done|].
    - rewrite Hm, Hacc', <- (assoc_L (++)), seqZ_app by lia.
      do 3 f_equal. lia.
    - intros _. destruct symbols as [|s symbols].
      + rewrite Hnil by done. lia.
      + destruct Hin as [? ?]; [done|]. lia. }
  assert (∀ fd count acc',
    (1 ≤ count)%nat →
    match_foundation self text text_idx count = Ok (Some fd) →
    m_positions acc' = m_positions acc ++ positions fd →
    match_loop self text cluster symbols (cursor_after fd text_idx) acc' = Ok (Some m) →
    ∃ k, len (p_char :: symbols) ≤ k
      ∧ m_positions m = m_positions acc ++ seqZ text_idx k
      ∧ (p_char :: symbols = [] → k = 0)
      ∧ (p_char :: symbols ≠ [] → 0 ≤ text_idx ∧ text_idx + k ≤ len text))
    as Hgroup.
  { intros fd count acc' Hcount Hfd Hacc' Hrest.
    destruct (cursor_after_group _ _ _ Hcount Hfd) as [Hcur Hlt].
    pose proof (match_foundation_start _ _ _ _ _ Hfd) as Hstart.
    destruct (match_foundation_shape _ _ _ _ _ Hfd) as (_ & _ & _ & Hpos & Hend).
    rewrite Hcur in Hrest. rewrite Hpos in Hacc'.
    eapply Hadvance; [| |done..]; lia. }
  simpl. case_decide as Hrange; [done|]. case_decide as Hx.
  - destruct Hcl as [Hcl|Hnx]; [|by apply not_elem_of_cons in Hnx as [? _]].
    destruct (match_foundation self text text_idx cluster) as [[fd|]|e'] eqn:Hfd;
      simpl; [|done..].
    by apply Hgroup with (count := cluster).
  - case_decide as Hf.
    + destruct (match_foundation self text text_idx 1) as [[fd|]|e'] eqn:Hfd;
        simpl; [|done..].
      by apply Hgroup with (count := 1%nat).
    + case_decide; [|done].
      destruct (char_at text text_idx) as [c|] eqn:Hc; simpl; [|done].
      case_decide; [|done].
      apply Hadvance; [lia..|]. simpl.
      replace (text_idx + 1 - text_idx) with 1 by lia.
      rewrite seqZ_cons, seqZ_nil by lia. done.
Qed.

(** Where the containers of a match come from: each was returned by
    [match_foundation], the foundation for the cluster size of the call
    and the final for one consonant. *)
Lemma match_loop_containers cluster symbols text_idx acc m :
  match_loop self text cluster symbols text_idx acc = Ok (Some m) →
  m_pattern m = m_pattern acc
  ∧ (m_foundation m = m_foundation acc ∧ sym_x ∉ symbols
     ∨ ∃ i fd, m_foundation m = Some fd
         ∧ match_foundation self text i cluster = Ok (Some fd))
  ∧ (m_final m = m_final acc
     ∨ ∃ i fd, m_final m = Some fd
         ∧ match_foundation self text i 1 = Ok (Some fd)).
Proof.
  revert text_idx acc.
  induction symbols as [|p_char symbols IH]; intros text_idx acc.
  { simpl. intros [= <-]. split_and!; [done|left|by left].
    split; [done|]. by intros ?%elem_of_nil. }
  simpl. case_decide as Hrange; [done|]. case_decide as Hx.
  - destruct (match_foundation self text text_idx cluster) as [[fd|]|e'] eqn:Hfd;
      simpl; [|done..].
    intros (Hp & Hfo & Hfi)%IH. simpl in *. split_and!; [done| |done].
    right. destruct Hfo as [[-> _]|?]; eauto.
  - case_decide as Hf.
    + destruct (match_foundation self text text_idx 1) as [[fd|]|e'] eqn:Hfd;
        simpl; [|done..].
      intros (Hp & Hfo & Hfi)%IH. simpl in *. split_and!; [done| |].
      * destruct Hfo as [[-> ?]|?]; [left|by right].
        split; [done|]. by apply not_elem_of_cons.
      * right. destruct Hfi as [->|?]; eauto.
    + case_decide; [|done].
      destruct (char_at text text_idx) as [c|] eqn:Hc; simpl; [|done].
      case_decide; [|done].
      intros (Hp & Hfo & Hfi)%IH. simpl in *. split_and!; [done| |done].
      destruct Hfo as [[-> ?]|?]; [left|by right].
      split; [done|]. by apply not_elem_of_cons.
Qed.

(** The cluster size is read at ['x'] only. *)
Lemma match_loop_cluster_irrelevant cluster cluster' symbols text_idx acc :
  sym_x ∉ symbols →
  match_loop self text cluster symbols text_idx acc
  = match_loop self text cluster' symbols text_idx acc.
Proof.
  revert text_idx acc.
  induction symbols as [|p_char symbols IH]; intros text_idx acc; [done|].
  intros [Hx Hnx]%not_elem_of_cons. simpl.
  case_decide; [done|]. case_decide; [done|]. case_decide.
  - destruct (match_foundation self text text_idx 1) as [[fd|]|e']; simpl;
      [by apply IH|done..].
  - case_decide; [|done].
    destruct (char_at text text_idx) as [c|]; simpl; [|done].
    case_decide; [by apply IH|done].
Qed.

(** *** Consequences for [try_match_pattern_with_foundation] *)

Lemma try_match_no_raise start pattern used cluster e :
  try_match_pattern_with_foundation self text start pattern used cluster ≠ Raise e.
Proof. apply match_loop_no_raise. Qed.

Lemma try_match_used start pattern used used' cluster :
  try_match_pattern_with_foundation self text start pattern used cluster
  = try_match_pattern_with_foundation self text start pattern used' cluster.
Proof. done. Qed.

Lemma try_match_positions start pattern used cluster m :
  (1 ≤ cluster)%nat ∨ sym_x ∉ pattern →
  try_match_pattern_with_foundation self text start pattern used cluster = Ok (Some m) →
  ∃ k, len pattern ≤ k
    ∧ m_positions m = seqZ start k
    ∧ (pattern = [] → k = 0)
    ∧ (pattern ≠ [] → 0 ≤ start ∧ start + k ≤ len text).
Proof.
  intros Hcl Hm. by apply match_loop_positions in Hm.
Qed.

Lemma try_match_pattern start pattern used cluster m :
  try_match_pattern_with_foundation self text start pattern used cluster = Ok (Some m) →
  m_pattern m = pattern.
Proof. by intros (? & _)%match_loop_containers. Qed.

Lemma try_match_foundation start pattern used cluster m :
  try_match_pattern_with_foundation self text start pattern used cluster = Ok (Some m) →
  (m_foundation m = None ∧ sym_x ∉ pattern)
  ∨ (∃ i fd, m_foundation m = Some fd
       ∧ match_foundation self text i cluster = Ok (Some fd)).
Proof. by intros (_ & ? & _)%match_loop_containers. Qed.

Lemma try_match_final start pattern used cluster m :
  try_match_pattern_with_foundation self text start pattern used cluster = Ok (Some m) →
  m_final m = None
  ∨ (∃ i fd, m_final m = Some fd
       ∧ match_foundation self text i 1 = Ok (Some fd)).
Proof. by intros (_ & _ & ?)%match_loop_containers. Qed.

Lemma try_match_cluster_irrelevant start pattern used cluster cluster' :
  sym_x ∉ pattern →
  try_match_pattern_with_foundation self text start pattern used cluster
  = try_match_pattern_with_foundation self text start pattern used cluster'.
Proof. apply match_loop_cluster_irrelevant. Qed.
End template_matcher.

(** ** Loops that collect *)

Section for_each.
Context {A B : Type}.
Implicit Types (l : list A) (body : A → result (list B)).

Lemma for_each_Ok l body :
  (∀ a, a ∈ l → ∃ out, body a = Ok out) → ∃ res, for_each l body = Ok res.
Proof.
  induction l as [|a l IH]; intros Hbody; simpl; [by eexists|].
  destruct (Hbody a) as [out ->]; [by left|].
  destruct IH as [rest ->]; [|by eexists].
  intros a' ?. apply Hbody. by right.
Qed.

Lemma for_each_body_Ok l body res a :
  for_each l body = Ok res → a ∈ l → ∃ out, body a = Ok out.
Proof.
  revert res. induction l as [|a' l IH]; intros res Hres Ha.
  { by apply elem_of_nil in Ha. }
  simpl in Hres. destruct (body a') as [out|] eqn:Hout; [|done].
  simpl in Hres. destruct (for_each l body) as [rest|] eqn:Hrest; [|done].
  apply elem_of_cons in Ha as [->|Ha]; [by eexists|]. by eapply IH.
Qed.

Lemma for_each_elem l body res b :
  for_each l body = Ok res →
  b ∈ res ↔ ∃ a out, a ∈ l ∧ body a = Ok out ∧ b ∈ out.
Proof.
  revert res. induction l as [|a l IH]; intros res Hres; simpl in Hres.
  { injection Hres as <-. split; [by intros ?%elem_of_nil|].
    by intros (? & ? & ?%elem_of_nil & _). }
  destruct (body a) as [out|] eqn:Hout; [|done]. simpl in Hres.
  destruct (for_each l body) as [rest|] eqn:Hrest; [|done]. simpl in Hres.
  injection Hres as <-. rewrite elem_of_app, (IH rest) by done. split.
  - intros [?|(a' & out' & ? & ? & ?)].
    + exists a, out. split_and!; [by left|done..].
    + exists a', out'. split_and!; [by right|done..].
  - intros (a' & out' & [->|?]%elem_of_cons & Hb & ?).
    + left. congruence.
    + right. by exists a', out'.
Qed.

Lemma for_each_ext l body body' :
  (∀ a, a ∈ l → body a = body' a) → for_each l body = for_each l body'.
Proof.
  induction l as [|a l IH]; intros Hext; [done|]. simpl.
  rewrite Hext by by left. rewrite IH; [done|].
  intros a' ?. apply Hext. by right.
Qed.

Lemma for_each_no_raise l body e :
  (∀ a e', a ∈ l → body a ≠ Raise e') → for_each l body ≠ Raise e.
Proof.
  intros Hbody. destruct (for_each_Ok l body) as [res ->]; [|done].
  intros a Ha. specialize (Hbody a). destruct (body a) as [out|e']; [by eexists|].
  by destruct (Hbody e').
Qed.
End for_each.

(** ** Enumerating the matches of one pattern *)

Section find_pattern_matches.
Context (self : ThaiReadingOrderAnalyzer) (text : list char).

Lemma conflicts_false used ps :
  conflicts used ps = false ↔ ∀ p, p ∈ ps → p ∉ used.
Proof.
  unfold conflicts. induction ps as [|p ps IH]; simpl.
  - split; [|done]. by intros _ ? ?%elem_of_nil.
  - rewrite orb_false_iff, IH, bool_decide_eq_false. split.
    + intros [? Hps] p' [->|?]%elem_of_cons; auto.
    + intros Hall. split; [apply Hall; by left|].
      intros p' ?. apply Hall. by right.
Qed.

Lemma cluster_sizes_spec pattern cluster :
  cluster ∈ cluster_sizes text pattern →
  (1 ≤ cluster)%nat ∨ sym_x ∉ pattern.
Proof.
  unfold cluster_sizes. case_decide; [|by right].
  intros ?%elem_of_seq. left. lia.
Qed.

(** The two branches on [has_x] run the same attempt, over the cluster
    sizes of the pattern. *)
Lemma find_pattern_matches_alt pattern used :
  find_pattern_matches self text pattern used
  = for_each (seqZ (-5) (len text + 5)) (λ start_pos,
      for_each (cluster_sizes text pattern) (λ cluster_size,
        let* r := try_match_pattern_with_foundation self text start_pos pattern
                    used cluster_size in
        match r with
        | Some m => if conflicts used (m_positions m) then Ok [] else Ok [m]
        | None => Ok []
        end)).
Proof.
  unfold find_pattern_matches, cluster_sizes. apply for_each_ext.
  intros start _. case_bool_decide.
  - by rewrite decide_True.
  - rewrite decide_False by done. simpl.
    destruct (try_match_pattern_with_foundation self text start pattern used 0)
      as [[m|]|e]; simpl; [|done..].
    by destruct (conflicts used (m_positions m)).
Qed.

Lemma find_pattern_matches_Ok pattern used :
  ∃ ms, find_pattern_matches self text pattern used = Ok ms.
Proof.
  rewrite find_pattern_matches_alt. apply for_each_Ok. intros start _. apply for_each_Ok. intros cluster _.
  destruct (try_match_pattern_with_foundation self text start pattern used cluster)
    as [[m|]|e] eqn:Hm; simpl.
  - destruct (conflicts used (m_positions m)); by eexists.
  - by eexists.
  - by apply try_match_no_raise in Hm.
Qed.

(** The matches returned: one for each start offset in [-5, len text) and
    each cluster size tried whose match succeeds clear of [used]. *)
Lemma find_pattern_matches_elem pattern used ms m :
  find_pattern_matches self text pattern used = Ok ms →
  m ∈ ms ↔
    ∃ start cluster,
      -5 ≤ start < len text
      ∧ cluster ∈ cluster_sizes text pattern
      ∧ try_match_pattern_with_foundation self text start pattern used cluster
        = Ok (Some m)
      ∧ conflicts used (m_positions m) = false.
Proof.
  intros Hms. rewrite find_pattern_matches_alt in Hms.
  rewrite (for_each_elem _ _ _ _ Hms). split.
  - intros (start & out & Hstart%elem_of_seqZ & Hout & Hm).
    rewrite (for_each_elem _ _ _ _ Hout) in Hm.
    destruct Hm as (cluster & out' & Hcl & Hbody & Hm).
    exists start, cluster. split; [lia|]. split; [done|].
    destruct (try_match_pattern_with_foundation self text start pattern used cluster)
      as [[m'|]|e]; simpl in Hbody; [| |done].
    + destruct (conflicts used (m_positions m')) eqn:Hc.
      * injection Hbody as <-. by apply elem_of_nil in Hm.
      * injection Hbody as <-. apply list_elem_of_singleton in Hm as ->. done.
    + injection Hbody as <-. by apply elem_of_nil in Hm.
  - intros (start & cluster & Hstart & Hcl & Hm & Hc).
    assert (start ∈ seqZ (-5) (len text + 5)) as Hin
      by (apply elem_of_seqZ; lia).
    destruct (for_each_body_Ok _ _ _ _ Hms Hin) as [out Hout].
    exists start, out. split_and!; [done..|].
    rewrite (for_each_elem _ _ _ _ Hout).
    exists cluster, [m]. split_and!; [done| |by left].
    by rewrite Hm; simpl; rewrite Hc.
Qed.

(** What the search relies on: a returned match stays inside the text,
    has no repeated position and avoids [used]. *)
Lemma find_pattern_matches_positions pattern used ms m :
  find_pattern_matches self text pattern used = Ok ms → m ∈ ms →
  ∃ start k,
    m_positions m = seqZ start k
    ∧ (m_positions m ≠ [] → 0 ≤ start ∧ start + k ≤ len text)
    ∧ ∀ p, p ∈ m_positions m → p ∉ used.
Proof.
  intros Hms Hm. apply (find_pattern_matches_elem _ _ _ _ Hms) in Hm
    as (start & cluster & _ & Hcl%cluster_sizes_spec & Hm & Hc).
  apply try_match_positions in Hm as (k & _ & Hpos & Hnil & Hin); [|done].
  exists start, k. split_and!; [done| |by apply conflicts_false].
  intros Hne. apply Hin. intros ->. rewrite Hnil, seqZ_nil in Hpos by done. done.
Qed.
End find_pattern_matches.

(** ** The search *)

Section search.
Context (self : ThaiReadingOrderAnalyzer) (text : list char).

Lemma elem_of_all_positions p : p ∈ all_positions text ↔ 0 ≤ p < len text.
Proof. unfold all_positions. rewrite elem_of_list_to_set, elem_of_seqZ. lia. Qed.

Lemma size_all_positions : size (all_positions text) = length text.
Proof.
  unfold all_positions. rewrite size_list_to_set by apply NoDup_seqZ.
  rewrite length_seqZ. unfold len. lia.
Qed.

(** An accepted transition: the match covers a position, so the used set
    grows by at least that position and stays inside the text. *)
Lemma transition_progress pattern used ms m p :
  find_pattern_matches self text pattern used = Ok ms → m ∈ ms →
  p ∈ m_positions m →
  p ∈ all_positions text ∧ (p ∉ used)
  ∧ (size used < size (used ∪ list_to_set (m_positions m)))%nat
  ∧ (size (all_positions text ∖ (used ∪ list_to_set (m_positions m)))
     < size (all_positions text ∖ used))%nat
  ∧ (used ⊆ all_positions text →
     used ∪ list_to_set (m_positions m) ⊆ all_positions text).
Proof.
  intros Hms Hm Hp.
  destruct (find_pattern_matches_positions _ _ _ _ _ _ Hms Hm)
    as (start & k & Hpos & Hin & Hfree).
  assert (∀ q, q ∈ m_positions m → q ∈ all_positions text) as Hall.
  { intros q Hq. apply elem_of_all_positions.
    destruct Hin as [? ?]; [by intros Hnil; rewrite Hnil in Hq; apply elem_of_nil in Hq|].
    rewrite Hpos in Hq. apply elem_of_seqZ in Hq. lia. }
  pose proof (Hall p Hp) as Hpall. pose proof (Hfree p Hp) as Hpfree.
  assert (p ∈ (list_to_set (m_positions m) : gset Z)) as Hpset
    by by apply elem_of_list_to_set.
  split_and!; [done..| | |].
  - apply subset_size. split; [apply union_subseteq_l|].
    intros Hsub. apply Hpfree, Hsub. by apply elem_of_union_r.
  - apply subset_size. split.
    + intros q [? Hq]%elem_of_difference. apply elem_of_difference.
      split; [done|]. intros ?. apply Hq. by apply elem_of_union_l.
    + intros Hsub. specialize (Hsub p).
      rewrite !elem_of_difference, elem_of_union in Hsub.
      destruct Hsub as [_ []]; auto.
  - intros Hused q [?|Hq%elem_of_list_to_set]%elem_of_union; auto.
Qed.

(** Every call returns once the fuel exceeds the number of positions that
    are still free. *)
Lemma explore_terminates fuel pos used current :
  (size (all_positions text ∖ used) < fuel)%nat →
  ∃ rs, explore_segmentations self text fuel pos used current = Ok rs.
Proof.
  revert pos used current.
  induction fuel as [|fuel IH]; intros pos used current Hfuel; [lia|].
  simpl. case_decide; [case_decide; by eexists|].
  case_decide; [by eexists|].
  apply for_each_Ok. intros pattern _.
  destruct (find_pattern_matches_Ok self text pattern used) as [ms Hms].
  rewrite Hms. simpl. apply for_each_Ok. intros m Hm.
  case_decide as Hpos; [|by eexists].
  apply IH.
  destruct (transition_progress _ _ _ _ _ Hms Hm Hpos) as (_ & _ & _ & ? & _).
  lia.
Qed.

(** More fuel does not change a result. *)
Lemma explore_fuel_mono fuel fuel' pos used current rs :
  (fuel ≤ fuel')%nat →
  explore_segmentations self text fuel pos used current = Ok rs →
  explore_segmentations self text fuel' pos used current = Ok rs.
Proof.
  revert fuel' pos used current rs.
  induction fuel as [|fuel IH]; intros fuel' pos used current rs Hle; [done|].
  destruct fuel' as [|fuel']; [lia|]. simpl.
  case_decide; [done|]. case_decide; [done|].
  intros Hrs. rewrite <- Hrs. apply for_each_ext. intros pattern Hpat.
  destruct (for_each_body_Ok _ _ _ _ Hrs Hpat) as [out Hout].
  destruct (find_pattern_matches self text pattern used) as [ms|]; [|done].
  simpl in *. apply for_each_ext. intros m Hm.
  destruct (for_each_body_Ok _ _ _ _ Hout Hm) as [out' Hout'].
  case_decide; [|done]. rewrite Hout'. apply IH; [lia|done].
Qed.

(** A state whose used set has the size of the text emits its partial
    reading when, and only when, it holds one syllable. *)
Lemma explore_terminal fuel pos used current :
  size used = length text →
  explore_segmentations self text (S fuel) pos used current
  = Ok (if decide (length current = 1%nat) then [current] else []).
Proof. intros Hsize. simpl. rewrite decide_True by done. by case_decide. Qed.

(** What a call can emit: its own partial reading at a terminal state, or
    the one-syllable reading made by a single transition from the empty
    partial reading. *)
Lemma explore_emits fuel pos used current rs r :
  explore_segmentations self text fuel pos used current = Ok rs → r ∈ rs →
  length r = 1%nat
  ∧ (r = current ∧ size used = length text
     ∨ current = [] ∧ size used ≠ length text
       ∧ ∃ pattern ms m,
           pattern ∈ vowel_patterns self
           ∧ find_pattern_matches self text pattern used = Ok ms
           ∧ m ∈ ms
           ∧ skip_used (len text) used (Z.to_nat (len text - pos)) pos
             ∈ m_positions m
           ∧ size (used ∪ list_to_set (m_positions m)) = length text
           ∧ r = [syllable_of_match m]).
Proof.
  revert pos used current rs.
  induction fuel as [|fuel IH]; intros pos used current rs; [done|].
  simpl. case_decide as Hsize.
  { case_decide; intros [= <-]; [|by intros ?%elem_of_nil].
    intros ->%list_elem_of_singleton. auto. }
  case_decide; [by intros [= <-] ?%elem_of_nil|].
  intros Hrs Hr. rewrite (for_each_elem _ _ _ _ Hrs) in Hr.
  destruct Hr as (pattern & out & Hpat & Hout & Hr).
  destruct (find_pattern_matches self text pattern used) as [ms|] eqn:Hms; [|done].
  simpl in Hout. rewrite (for_each_elem _ _ _ _ Hout) in Hr.
  destruct Hr as (m & out' & Hm & Hout' & Hr).
  case_decide as Hpos; [|by injection Hout' as <-; apply elem_of_nil in Hr].
  destruct (IH _ _ _ _ Hout' Hr) as [Hlen [[-> Hfull]|(Hnil & _)]].
  - rewrite length_app in Hlen. simpl in Hlen.
    destruct current; [|simpl in Hlen; lia].
    split; [done|]. right. split_and!; [done..|].
    exists pattern, ms, m. split_and!; done.
  - by destruct current.
Qed.

(** Conversely, a transition from the empty partial reading that fills the
    used set is emitted. *)
Lemma explore_complete fuel pos used rs pattern ms m :
  explore_segmentations self text (S (S fuel)) pos used [] = Ok rs →
  size used ≠ length text →
  pattern ∈ vowel_patterns self →
  find_pattern_matches self text pattern used = Ok ms → m ∈ ms →
  skip_used (len text) used (Z.to_nat (len text - pos)) pos ∈ m_positions m →
  size (used ∪ list_to_set (m_positions m)) = length text →
  [syllable_of_match m] ∈ rs.
Proof.
  intros Hrs Hsize Hpat Hms Hm Hpos Hfull.
  change (explore_segmentations self text (S (S fuel)) pos used [])
    with (if decide (size used = length text) then
            if decide (length ([] : list Syllable) = 1%nat) then Ok [[]] else Ok []
          else
            let pos' := skip_used (len text) used (Z.to_nat (len text - pos)) pos in
            if decide (len text ≤ pos') then Ok []
            else
              for_each (vowel_patterns self) (λ pattern,
                let* matches := find_pattern_matches self text pattern used in
                for_each matches (λ m,
                  if decide (pos' ∈ m_positions m) then
                    explore_segmentations self text (S fuel) 0
                      (used ∪ list_to_set (m_positions m))
                      ([] ++ [syllable_of_match m])
                  else Ok []))) in Hrs.
  rewrite decide_False in Hrs by done. simpl in Hrs.
  destruct (transition_progress _ _ _ _ _ Hms Hm Hpos)
    as (Hin%elem_of_all_positions & _).
  rewrite decide_False in Hrs by lia.
  rewrite (for_each_elem _ _ _ _ Hrs).
  destruct (for_each_body_Ok _ _ _ _ Hrs Hpat) as [out Hout].
  exists pattern, out. split_and!; [done..|].
  rewrite Hms in Hout. simpl in Hout.
  rewrite (for_each_elem _ _ _ _ Hout).
  exists m, [[syllable_of_match m]]. split_and!; [done| |by left].
  rewrite decide_True by done.
  rewrite decide_True by done. done.
Qed.

(** The steps given to [skip_used] let the loop run to its exit: the
    result is the first position from [pos] on that is free or past the
    text. *)
Lemma skip_used_exit used steps pos :
  (Z.to_nat (len text - pos) ≤ steps)%nat →
  let p := skip_used (len text) used steps pos in
  pos ≤ p
  ∧ ¬ (p < len text ∧ p ∈ used)
  ∧ ∀ q, pos ≤ q < p → q < len text ∧ q ∈ used.
Proof.
  revert pos. induction steps as [|steps IH]; intros pos Hsteps; simpl.
  - split_and!; [lia|lia|lia].
  - case_decide as Hc.
    + destruct (IH (pos + 1)) as (? & ? & Hq); [lia|].
      split_and!; [lia|done|]. intros q ?.
      destruct (decide (q = pos)) as [->|]; [done|]. apply Hq. lia.
    + split_and!; [lia|done|lia].
Qed.

Lemma skip_used_free text_len used steps p :
  p ∉ used → skip_used text_len used steps p = p.
Proof.
  intros ?. destruct steps as [|steps]; [done|]. simpl.
  rewrite decide_False; [done|]. by intros [_ ?].
Qed.

(** The raw readings of a non-empty text: one for each pattern of the
    catalog and each cluster size tried whose match at offset [0] consumes
    every position of the text. *)
Lemma all_readings_elem rs r :
  text ≠ [] →
  all_readings self text = Ok rs →
  r ∈ rs ↔
    ∃ pattern cluster m,
      pattern ∈ vowel_patterns self
      ∧ cluster ∈ cluster_sizes text pattern
      ∧ try_match_pattern_with_foundation self text 0 pattern ∅ cluster = Ok (Some m)
      ∧ m_positions m = seqZ 0 (len text)
      ∧ r = [syllable_of_match m].
Proof.
  intros Htext Hrs. unfold all_readings in Hrs.
  assert (size (∅ : gset Z) ≠ length text) as Hsize.
  { rewrite size_empty. by destruct text. }
  assert (0 < len text) as Hlen by (unfold len; destruct text; simpl; [done|lia]).
  split.
  - intros Hr. destruct (explore_emits _ _ _ _ _ _ Hrs Hr)
      as [_ [[_ ?]|(_ & _ & pattern & ms & m & Hpat & Hms & Hm & Hpos & Hfull & ->)]];
      [done|].
    rewrite skip_used_free in Hpos by apply not_elem_of_empty.
    apply (find_pattern_matches_elem _ _ _ _ _ _ Hms) in Hm
      as (start & cluster & _ & Hcl & Hm & _).
    pose proof (cluster_sizes_spec _ _ _ Hcl) as Hcl'.
    destruct (try_match_positions _ _ _ _ _ _ _ Hcl' Hm)
      as (k & _ & Hk & Hnil & Hin).
    rewrite Hk in Hpos. apply elem_of_seqZ in Hpos.
    destruct Hin as [? ?]; [intros Hp; specialize (Hnil Hp); lia|].
    assert (start = 0) as -> by lia.
    rewrite (left_id_L ∅ (∪)), Hk, size_list_to_set, length_seqZ in Hfull
      by apply NoDup_seqZ.
    assert (k = len text) as -> by (unfold len; lia).
    exists pattern, cluster, m. done.
  - intros (pattern & cluster & m & Hpat & Hcl & Hm & Hpos & ->).
    destruct (find_pattern_matches_Ok self text pattern ∅) as [ms Hms].
    destruct text as [|c text'] eqn:Etext; [done|]. rewrite <- Etext in *.
    assert (length text = S (length text')) as Hl by by rewrite Etext.
    rewrite Hl in Hrs.
    eapply explore_complete; [done..| | |].
    + apply (find_pattern_matches_elem _ _ _ _ _ _ Hms).
      exists 0, cluster. split_and!; [lia|done..|].
      apply conflicts_false. intros ? _. apply not_elem_of_empty.
    + rewrite skip_used_free by apply not_elem_of_empty.
      rewrite Hpos. apply elem_of_seqZ. lia.
    + rewrite (left_id_L ∅ (∪)), Hpos, size_list_to_set, length_seqZ
        by apply NoDup_seqZ.
      unfold len. lia.
Qed.

Lemma all_readings_Ok : ∃ rs, all_readings self text = Ok rs.
Proof.
  apply explore_terminates.
  pose proof (subseteq_size (all_positions text ∖ ∅) (all_positions text)) as Hle.
  rewrite size_all_positions in Hle.
  assert (all_positions text ∖ ∅ ⊆ all_positions text) as Hsub
    by (intros q [? _]%elem_of_difference; done).
  specialize (Hle Hsub). lia.
Qed.
End search.

(** ** Assembling the result *)

Section assemble.
Implicit Types (seen raw : list (list Syllable)) (r : list Syllable).

Lemma unique_loop_elem seen raw rd :
  rd ∈ unique_loop seen raw →
  rd = build_reading (syllables rd) ∧ syllables rd ∈ raw ∧ syllables rd ∉ seen.
Proof.
  revert seen. induction raw as [|r raw IH]; intros seen; simpl.
  { by intros ?%elem_of_nil. }
  case_decide as Hseen.
  - intros (? & ? & ?)%IH. split_and!; [done|by right|done].
  - intros [->|(? & ? & Hns)%IH]%elem_of_cons.
    + split_and!; [done|by left|done].
    + split_and!; [done|by right|]. intros ?. apply Hns. by right.
Qed.

Lemma unique_loop_complete seen raw r :
  r ∈ raw → r ∉ seen → build_reading r ∈ unique_loop seen raw.
Proof.
  revert seen. induction raw as [|r' raw IH]; intros seen; simpl.
  { by intros ?%elem_of_nil. }
  intros [->|Hr]%elem_of_cons Hseen.
  - rewrite decide_False by done. by left.
  - case_decide; [by apply IH|].
    destruct (decide (r = r')) as [->|Hne]; [by left|].
    right. apply IH; [done|]. by intros [?|?]%elem_of_cons.
Qed.

Lemma unique_loop_NoDup seen raw :
  NoDup (syllables <$> unique_loop seen raw).
Proof.
  revert seen. induction raw as [|r raw IH]; intros seen; simpl.
  { constructor. }
  case_decide; [apply IH|]. rewrite fmap_cons. constructor; [|apply IH].
  intros (rd & Hrd & (_ & _ & Hns)%unique_loop_elem)%list_elem_of_fmap.
  apply Hns. simpl in Hrd. rewrite <- Hrd. by left.
Qed.
End assemble.

(** ** The analysis of a text *)

Section analysis.
Context (self : ThaiReadingOrderAnalyzer) (text : list char).

Lemma analysis_Ok : ∃ res, findThaiGraphemeOrderDomain self text = Ok res.
Proof.
  unfold findThaiGraphemeOrderDomain. destruct text as [|c text'] eqn:E.
  - by eexists.
  - destruct (all_readings_Ok self (c :: text')) as [rs ->]. by eexists.
Qed.

Lemma analysis_nonempty res :
  text ≠ [] →
  findThaiGraphemeOrderDomain self text = Ok res →
  ∃ raw, all_readings self text = Ok raw
    ∧ res = {| res_text := text;
               readings := unique_loop [] raw;
               is_ambiguous := bool_decide (1 < length (unique_loop [] raw))%nat;
               unmatched := [] |}.
Proof.
  unfold findThaiGraphemeOrderDomain. destruct text as [|c text'] eqn:E; [done|].
  intros _. destruct (all_readings self (c :: text')) as [raw|]; [|done].
  simpl. intros [= <-]. by exists raw.
Qed.

Lemma analysis_reading res rd :
  findThaiGraphemeOrderDomain self text = Ok res → rd ∈ readings res →
  text ≠ []
  ∧ ∃ raw, all_readings self text = Ok raw ∧ syllables rd ∈ raw.
Proof.
  intros Hres Hrd. destruct (decide (text = [])) as [->|Hne].
  { injection Hres as <-. by apply elem_of_nil in Hrd. }
  split; [done|].
  destruct (analysis_nonempty _ Hne Hres) as (raw & Hraw & ->). simpl in Hrd.
  apply unique_loop_elem in Hrd as (_ & ? & _). by exists raw.
Qed.

(** A reading of the result is the syllable of one match of a catalog
    pattern at offset [0], with a cluster size the search tries, that
    consumes the whole text. *)
Lemma analysis_reading_match res rd :
  findThaiGraphemeOrderDomain self text = Ok res → rd ∈ readings res →
  ∃ pattern cluster m,
    pattern ∈ vowel_patterns self
    ∧ cluster ∈ cluster_sizes text pattern
    ∧ try_match_pattern_with_foundation self text 0 pattern ∅ cluster = Ok (Some m)
    ∧ m_positions m = seqZ 0 (len text)
    ∧ syllables rd = [syllable_of_match m].
Proof.
  intros Hres Hrd.
  destruct (analysis_reading _ _ Hres Hrd) as (Hne & raw & Hraw & Hin).
  by apply (all_readings_elem _ _ _ _ Hne Hraw) in Hin.
Qed.
End analysis.

(** ** Containers returned by the group matcher *)

Section containers.
Context (self : ThaiReadingOrderAnalyzer) (text : list char).

Lemma consonant_pos_in_group start count fd j :
  match_foundation self text start count = Ok (Some fd) → (j < count)%nat →
  consonant_pos self text start j ∈ positions fd
  ∧ (tone_after self text (consonant_pos self text start j) ≠ None →
     consonant_pos self text start j + 1 ∈ positions fd).
Proof.
  intros (_ & _ & _ & -> & _)%match_foundation_shape Hj.
  pose proof (consonant_pos_mono self text start 0 j) as H0. simpl in H0.
  pose proof (consonant_pos_mono self text start (S j) count) as H1.
  rewrite consonant_pos_S in H1.
  pose proof (next_consonant_bounds self text (consonant_pos self text start j)).
  rewrite !elem_of_seqZ. split; [lia|]. intros Ht.
  destruct (tone_after self text (consonant_pos self text start j)) as [t|] eqn:E;
    [|done].
  apply tone_after_Some in E as (_ & _ & E). lia.
Qed.

Lemma match_foundation_container_ok start count fd :
  match_foundation self text start count = Ok (Some fd) →
  container_ok self text fd.
Proof.
  intros Hfd.
  destruct (match_foundation_shape _ _ _ _ _ Hfd) as (Hlen & Hget & Hall & Hpos & _).
  split; [done|]. intros t Ht.
  destruct (match_foundation_tone _ _ _ _ _ Hfd)
    as [(_ & Hn & _)|(j & t' & Hj & Hta & _ & Htone & Hown)]; [congruence|].
  assert (t' = t) as -> by congruence.
  destruct (tone_after_Some _ _ _ _ Hta) as (Hnext & Hin & _).
  split; [done|].
  destruct (lookup_lt_is_Some_2 (consonants fd) j) as [c Hc]; [lia|].
  destruct (consonant_pos_in_group _ _ _ _ Hfd Hj) as [Hq Hq1].
  exists j, c, start, (consonant_pos self text start j).
  split_and!; try done.
  - pose proof (consonant_pos_mono self text start 0 count) as H0. simpl in H0.
    rewrite Hpos, seqZ_cons by lia. done.
  - by rewrite <- Hget.
  - apply Hq1. by rewrite Hta.
Qed.

Lemma toned_count_pos start n k :
  (k < n)%nat →
  tone_after self text (consonant_pos self text start k) ≠ None →
  (1 ≤ toned_count self text start n)%nat.
Proof.
  intros Hk Ht. destruct (toned_count self text start n) eqn:E; [|lia].
  by apply toned_count_zero with (j := k) in E.
Qed.

Lemma toned_count_two start n j k :
  (j < k < n)%nat →
  tone_after self text (consonant_pos self text start j) ≠ None →
  tone_after self text (consonant_pos self text start k) ≠ None →
  (2 ≤ toned_count self text start n)%nat.
Proof.
  revert start j k. induction n as [|n IH]; intros start j k Hjk Hj Hk; [lia|].
  destruct k as [|k]; [lia|]. simpl in Hk |- *. destruct j as [|j].
  - simpl in Hj. destruct (tone_after self text start); [|done].
    pose proof (toned_count_pos (next_consonant self text start) n k
                  ltac:(lia) Hk). lia.
  - simpl in Hj.
    pose proof (IH (next_consonant self text start) j k ltac:(lia) Hj Hk).
    destruct (tone_after self text start); lia.
Qed.
End containers.

(** * The properties *)

(** C10. The ['unmatched'] field of the result is the empty list for every
    input string, whatever the readings are. *)
Theorem unmatched_always_empty (self : ThaiReadingOrderAnalyzer) (text : list char) :
  ∃ res, findThaiGraphemeOrderDomain self text = Ok res ∧ unmatched res = [].
Proof.
  destruct (decide (text = [])) as [->|Hne]; [by eexists|].
  destruct (analysis_Ok self text) as [res Hres]. exists res. split; [done|].
  by destruct (analysis_nonempty _ _ _ Hne Hres) as (raw & _ & ->).
Qed.

(** C8. A text without readings is a normal result: the analysis of every
    text returns a result (it raises nothing); when the search emits no
    reading the result has zero readings and [is_ambiguous] false; and the
    empty string has zero readings and [is_ambiguous] false. *)
Theorem zero_readings_is_normal (self : ThaiReadingOrderAnalyzer) (text : list char) :
  ∃ res, findThaiGraphemeOrderDomain self text = Ok res
    ∧ (all_readings self text = Ok [] →
       readings res = [] ∧ is_ambiguous res = false)
    ∧ (text = [] → readings res = [] ∧ is_ambiguous res = false).
Proof.
  destruct (analysis_Ok self text) as [res Hres]. exists res.
  split_and!; [done| |].
  - intros Hraw. destruct (decide (text = [])) as [->|Hne].
    + by injection Hres as <-.
    + destruct (analysis_nonempty _ _ _ Hne Hres) as (raw & Hraw' & ->).
      assert (raw = []) as -> by congruence. done.
  - intros ->. by injection Hres as <-.
Qed.

(** C9. Termination of the search: every call of the recursive search
    returns as soon as its fuel exceeds the length of the text, whatever the
    text, catalog, foundation set, tone-mark set and state; and each accepted
    transition (a returned match that covers the position looked for) adds a
    new position to the used set, which stays within the positions of the
    text and so never has more than [len text] elements. *)
Theorem search_terminates (self : ThaiReadingOrderAnalyzer) (text : list char) :
  (∀ fuel pos used current,
     (length text < fuel)%nat →
     ∃ rs, explore_segmentations self text fuel pos used current = Ok rs)
  ∧ (∀ pattern used ms m p,
       find_pattern_matches self text pattern used = Ok ms → m ∈ ms →
       p ∈ m_positions m → used ⊆ all_positions text →
       (p ∉ used) ∧ p ∈ used ∪ list_to_set (m_positions m)
       ∧ (size used < size (used ∪ list_to_set (m_positions m)) ≤ length text)%nat).
Proof.
  split.
  - intros fuel pos used current Hfuel. apply explore_terminates.
    pose proof (subseteq_size (all_positions text ∖ used) (all_positions text)) as Hle.
    rewrite size_all_positions in Hle.
    assert (all_positions text ∖ used ⊆ all_positions text) as Hsub
      by (intros q [? _]%elem_of_difference; done).
    specialize (Hle Hsub). lia.
  - intros pattern used ms m p Hms Hm Hp Hused.
    destruct (transition_progress _ _ _ _ _ _ _ Hms Hm Hp)
      as (_ & Hfree & Hgrow & _ & Hin).
    split_and!; [done| |done|].
    + apply elem_of_union_r. by apply elem_of_list_to_set.
    + rewrite <- (size_all_positions text). apply subseteq_size. by apply Hin.
Qed.

(** C7, as amended. Bounds safety of the template matcher: with a symbol
    left to consume and the cursor outside [0, len text) the match fails; so
    a match attempt at a negative start offset fails when the template has at
    least one symbol; and no attempt ever evaluates [text[i]] outside the
    text. *)
Theorem template_matcher_bounds (self : ThaiReadingOrderAnalyzer) (text : list char)
    (cluster : nat) :
  (∀ p_char symbols text_idx acc,
     text_idx < 0 ∨ len text ≤ text_idx →
     match_loop self text cluster (p_char :: symbols) text_idx acc = Ok None)
  ∧ (∀ start pattern used,
       start < 0 → pattern ≠ [] →
       try_match_pattern_with_foundation self text start pattern used cluster
       = Ok None)
  ∧ (∀ start pattern used e,
       try_match_pattern_with_foundation self text start pattern used cluster
       ≠ Raise e).
Proof.
  split_and!.
  - intros. by apply match_loop_out_of_range.
  - intros start [|p_char symbols] used Hstart Hne; [done|].
    apply match_loop_out_of_range. by left.
  - intros. apply try_match_no_raise.
Qed.

(** C3. Exactly one syllable: every reading of a result has a syllable list
    of length 1, and a search state whose used set is the set of all
    positions of the text while its partial list has another length emits
    nothing. *)
Theorem single_syllable_policy (self : ThaiReadingOrderAnalyzer) (text : list char) :
  (∀ res rd,
     findThaiGraphemeOrderDomain self text = Ok res → rd ∈ readings res →
     length (syllables rd) = 1%nat)
  ∧ (∀ fuel pos used current,
       used = all_positions text → length current ≠ 1%nat →
       explore_segmentations self text (S fuel) pos used current = Ok []).
Proof.
  split.
  - intros res rd Hres Hrd.
    destruct (analysis_reading_match _ _ _ _ Hres Hrd) as (? & ? & ? & _ & _ & _ & _ & ->).
    done.
  - intros fuel pos used current -> Hlen.
    rewrite explore_terminal by apply size_all_positions.
    by rewrite decide_False.
Qed.

(** C2. Coverage: the syllables of a returned reading consume, between them,
    every position [0 .. len text - 1] of the text exactly once: the
    position lists of the syllables, put together, are a rearrangement of
    that range (no gap, nothing twice within a syllable or across two). *)
Theorem coverage_invariant (self : ThaiReadingOrderAnalyzer) (text : list char)
    (res : Analysis) (rd : Reading) :
  findThaiGraphemeOrderDomain self text = Ok res → rd ∈ readings res →
  ∃ pss,
    Forall2 (consumes self text) (syllables rd) pss
    ∧ concat pss ≡ₚ seqZ 0 (len text)
    ∧ NoDup (concat pss)
    ∧ ∀ p, p ∈ concat pss ↔ 0 ≤ p < len text.
Proof.
  intros Hres Hrd.
  destruct (analysis_reading_match _ _ _ _ Hres Hrd)
    as (pattern & cluster & m & _ & _ & Hm & Hpos & ->).
  exists [seqZ 0 (len text)]. simpl. rewrite (right_id_L [] (++)).
  split_and!; [|done|apply NoDup_seqZ|intros p; rewrite elem_of_seqZ; lia].
  repeat constructor. exists 0, cluster, ∅, m. simpl.
  by rewrite (try_match_pattern _ _ _ _ _ _ _ Hm).
Qed.

Lemma coverage_invariant_witness :
  ∃ pss,
    Forall2 (consumes Sample.analyzer Sample.ya) (syllables Sample.ya_reading) pss
    ∧ concat pss ≡ₚ seqZ 0 (len Sample.ya)
    ∧ NoDup (concat pss)
    ∧ ∀ p, p ∈ concat pss ↔ 0 ≤ p < len Sample.ya.
Proof.
  apply (coverage_invariant Sample.analyzer Sample.ya Sample.ya_analysis
           Sample.ya_reading).
  - vm_compute. reflexivity.
  - left.
Defined.

(** C5. Foundation invariant: a foundation or final container of a returned
    reading holds foundation characters only, and a recorded tone is a tone
    mark found in the text right after the recorded owner consonant, its
    position being one of the container's. *)
Theorem foundation_invariant (self : ThaiReadingOrderAnalyzer) (text : list char)
    (res : Analysis) (rd : Reading) (syllable : Syllable) (fd : Foundation) :
  findThaiGraphemeOrderDomain self text = Ok res → rd ∈ readings res →
  syllable ∈ syllables rd →
  syl_foundation syllable = Some fd ∨ syl_final syllable = Some fd →
  container_ok self text fd.
Proof.
  intros Hres Hrd Hsyl Hfd.
  destruct (analysis_reading_match _ _ _ _ Hres Hrd)
    as (pattern & cluster & m & _ & _ & Hm & _ & Hrd').
  rewrite Hrd' in Hsyl. apply list_elem_of_singleton in Hsyl as ->.
  simpl in Hfd. destruct Hfd as [Hfd|Hfd].
  - destruct (try_match_foundation _ _ _ _ _ _ _ Hm)
      as [[Hnone _]|(i & fd' & Hsome & Hfrom)]; [congruence|].
    assert (fd' = fd) as -> by congruence.
    by eapply match_foundation_container_ok.
  - destruct (try_match_final _ _ _ _ _ _ _ Hm)
      as [Hnone|(i & fd' & Hsome & Hfrom)]; [congruence|].
    assert (fd' = fd) as -> by congruence.
    by eapply match_foundation_container_ok.
Qed.

Lemma foundation_invariant_witness :
  container_ok Sample.analyzer Sample.yaa Sample.yaa_container.
Proof.
  apply (foundation_invariant Sample.analyzer Sample.yaa Sample.yaa_analysis
           (build_reading [syllable_of_match Sample.yaa_match])
           (syllable_of_match Sample.yaa_match)).
  - vm_compute. reflexivity.
  - left.
  - left.
  - left. reflexivity.
Defined.

(** C6. Tone retention: when a matched group has two toned consonants or
    more, the container keeps one tone, that of the last toned consonant of
    the group, owned by that consonant (the one consumed just before the
    tone), and not by an earlier toned one; every tone mark met still takes a
    position: the container has one position per consonant and one per toned
    consonant, the position after each toned consonant among them. *)
Theorem tone_retention (self : ThaiReadingOrderAnalyzer) (text : list char)
    (start : Z) (width : nat) (fd : Foundation) (j k : nat) (t : char) :
  match_foundation self text start width = Ok (Some fd) →
  (j < k < width)%nat →
  tone_after self text (consonant_pos self text start j) ≠ None →
  tone_after self text (consonant_pos self text start k) = Some t →
  (∀ j', (k < j' < width)%nat →
     tone_after self text (consonant_pos self text start j') = None) →
  tone fd = Some t
  ∧ tone_owner fd = Some k
  ∧ tone_owner fd ≠ Some j
  ∧ consonants fd !! k = text_get text (consonant_pos self text start k)
  ∧ text_get text (consonant_pos self text start k + 1) = Some t
  ∧ (2 ≤ toned_count self text start width)%nat
  ∧ length (positions fd) = (width + toned_count self text start width)%nat
  ∧ ∀ i, (i < width)%nat →
      tone_after self text (consonant_pos self text start i) ≠ None →
      consonant_pos self text start i + 1 ∈ positions fd.
Proof.
  intros Hfd Hjk Hj Hk Hlast.
  destruct (match_foundation_shape _ _ _ _ _ Hfd) as (_ & Hget & _).
  destruct (tone_after_Some _ _ _ _ Hk) as (Hnext & _ & _).
  assert (tone fd = Some t ∧ tone_owner fd = Some k) as [Htone Hown].
  { destruct (match_foundation_tone _ _ _ _ _ Hfd)
      as [(Hz & _)|(k' & t' & Hk' & Hta & Hlast' & Htone & Hown)].
    - apply toned_count_zero with (j := k) in Hz; [congruence|lia].
    - destruct (decide (k' = k)) as [->|Hne]; [split; congruence|].
      destruct (decide (k' < k)%nat).
      + rewrite Hlast' in Hk by lia. done.
      + rewrite Hlast in Hta by lia. done. }
  split_and!; try done.
  - rewrite Hown. intros [= ?]. lia.
  - apply Hget. lia.
  - apply toned_count_two with j k; [done..|]. by rewrite Hk.
  - by apply match_foundation_positions_length.
  - intros i Hi Hti. by apply (consonant_pos_in_group _ _ _ _ _ _ Hfd Hi).
Qed.

Lemma tone_retention_witness :
  tone Sample.two_tones_container = Some Sample.mai_tho
  ∧ tone_owner Sample.two_tones_container = Some 1%nat
  ∧ tone_owner Sample.two_tones_container ≠ Some 0%nat
  ∧ consonants Sample.two_tones_container !! 1%nat
    = text_get Sample.two_tones
        (consonant_pos Sample.analyzer Sample.two_tones 0 1)
  ∧ text_get Sample.two_tones
      (consonant_pos Sample.analyzer Sample.two_tones 0 1 + 1)
    = Some Sample.mai_tho
  ∧ (2 ≤ toned_count Sample.analyzer Sample.two_tones 0 2)%nat
  ∧ length (positions Sample.two_tones_container)
    = (2 + toned_count Sample.analyzer Sample.two_tones 0 2)%nat
  ∧ ∀ i, (i < 2)%nat →
      tone_after Sample.analyzer Sample.two_tones
        (consonant_pos Sample.analyzer Sample.two_tones 0 i) ≠ None →
      consonant_pos Sample.analyzer Sample.two_tones 0 i + 1
      ∈ positions Sample.two_tones_container.
Proof.
  apply (tone_retention Sample.analyzer Sample.two_tones 0 2
           Sample.two_tones_container 0 1 Sample.mai_tho).
  - vm_compute. reflexivity.
  - lia.
  - vm_compute. discriminate.
  - vm_compute. reflexivity.
  - intros j' ?. lia.
Defined.

(** ** Raw readings and their structure *)

Section structure.
Context (self : ThaiReadingOrderAnalyzer) (text : list char).





(** A successful match that consumes a position was made at a start offset
    and with a cluster size that [find_pattern_matches] tries. *)
Lemma attempt_is_tried start pattern used cluster m p :
  (1 ≤ cluster ≤ 3)%nat →
  try_match_pattern_with_foundation self text start pattern used cluster
  = Ok (Some m) →
  p ∈ m_positions m →
  0 ≤ start < len text
  ∧ ∃ cluster',
      cluster' ∈ cluster_sizes text pattern
      ∧ try_match_pattern_with_foundation self text start pattern used cluster'
        = Ok (Some m).
Proof.
  intros Hcl Hm Hp.
  destruct (try_match_positions _ _ _ _ _ _ _ (or_introl (proj1 Hcl)) Hm)
    as (k & _ & Hpos & Hnil & Hin).
  rewrite Hpos in Hp. apply elem_of_seqZ in Hp.
  destruct Hin as [? ?]; [intros Hnp; specialize (Hnil Hnp); lia|].
  split; [lia|]. unfold cluster_sizes. case_decide as Hx.
  - exists cluster. split; [|done]. apply elem_of_seq.
    destruct (try_match_foundation _ _ _ _ _ _ _ Hm)
      as [[_ ?]|(i & fd & _ & Hfd)]; [done|].
    pose proof (match_foundation_start _ _ _ _ _ Hfd).
    destruct (match_foundation_shape _ _ _ _ _ Hfd) as (_ & _ & _ & _ & Hend).
    pose proof (consonant_pos_mono self text i 0 cluster) as Hmono.
    simpl in Hmono. unfold len in *. lia.
  - exists 0%nat. split; [by left|].
    by rewrite <- (try_match_cluster_irrelevant _ _ _ _ _ cluster).
Qed.
End structure.




(** C4, as amended. Exhaustiveness: every match of a catalog pattern, at any
    start offset and with a cluster width of 1, 2 or 3, whose positions are
    exactly the positions of the text, gives a reading of the result,
    provided the text or the pattern is not empty; and at every state each
    successful match that covers a position and avoids the used set was made
    at a start offset the search tries and is among the matches it
    enumerates for its pattern. *)
Theorem search_exhaustive (self : ThaiReadingOrderAnalyzer) (text : list char) :
  (∀ res pattern start cluster used m,
     text ≠ [] ∨ pattern ≠ [] →
     findThaiGraphemeOrderDomain self text = Ok res →
     pattern ∈ vowel_patterns self →
     (1 ≤ cluster ≤ 3)%nat →
     try_match_pattern_with_foundation self text start pattern used cluster
     = Ok (Some m) →
     (∀ p, p ∈ m_positions m ↔ 0 ≤ p < len text) →
     ∃ rd, rd ∈ readings res ∧ syllables rd = [syllable_of_match m])
  ∧ (∀ pattern start cluster used m p,
       (1 ≤ cluster ≤ 3)%nat →
       try_match_pattern_with_foundation self text start pattern used cluster
       = Ok (Some m) →
       p ∈ m_positions m →
       conflicts used (m_positions m) = false →
       -5 ≤ start < len text
       ∧ ∃ ms, find_pattern_matches self text pattern used = Ok ms ∧ m ∈ ms).
Proof.
  split.
  - intros res pattern start cluster used m Hnonempty Hres Hpat Hcl Hm Hcover.
    assert (text ≠ []) as Hne.
    { destruct Hnonempty as [?|Hp]; [done|]. intros ->.
      destruct pattern as [|p_char symbols]; [done|].
      unfold try_match_pattern_with_foundation in Hm.
      rewrite match_loop_out_of_range in Hm; [done|]. unfold len. simpl. lia. }
    assert (0 < len text) as Hlen by (unfold len; destruct text; simpl; [done|lia]).
    assert (0 ∈ m_positions m) as H0 by (apply Hcover; lia).
    destruct (attempt_is_tried _ _ _ _ _ _ _ _ Hcl Hm H0)
      as (Hstart & cluster' & Hcl' & Hm').
    destruct (try_match_positions _ _ _ _ _ _ _
                (cluster_sizes_spec _ _ _ Hcl') Hm')
      as (k & _ & Hpos & Hnil & Hin).
    assert (len text - 1 ∈ m_positions m) as Hn by (apply Hcover; lia).
    rewrite Hpos in H0, Hn. apply elem_of_seqZ in H0, Hn.
    destruct Hin as [? ?]; [intros Hnp; specialize (Hnil Hnp); lia|].
    assert (start = 0) as -> by lia.
    assert (k = len text) as -> by lia.
    destruct (analysis_nonempty _ _ _ Hne Hres) as (raw & Hraw & ->). simpl.
    exists (build_reading [syllable_of_match m]). split; [|done].
    apply unique_loop_complete; [|by intros ?%elem_of_nil].
    apply (all_readings_elem _ _ _ _ Hne Hraw).
    exists pattern, cluster', m. split_and!; try done.
  - intros pattern start cluster used m p Hcl Hm Hp Hfree.
    destruct (attempt_is_tried _ _ _ _ _ _ _ _ Hcl Hm Hp)
      as (Hstart & cluster' & Hcl' & Hm').
    split; [lia|].
    destruct (find_pattern_matches_Ok self text pattern used) as [ms Hms].
    exists ms. split; [done|].
    apply (find_pattern_matches_elem _ _ _ _ _ _ Hms).
    exists start, cluster'. split_and!; try done; lia.
Qed.

Lemma search_exhaustive_witness :
  (∃ rd, rd ∈ readings Sample.yaa_analysis
     ∧ syllables rd = [syllable_of_match Sample.yaa_match])
  ∧ (-5 ≤ 0 < len Sample.yaa
     ∧ ∃ ms, find_pattern_matches Sample.analyzer Sample.yaa [sym_x; Sample.aa] ∅
             = Ok ms
         ∧ Sample.yaa_match ∈ ms).
Proof.
  split.
  - apply (proj1 (search_exhaustive Sample.analyzer Sample.yaa)
             Sample.yaa_analysis [sym_x; Sample.aa] 0 2%nat ∅ Sample.yaa_match).
    + left. discriminate.
    + vm_compute. reflexivity.
    + left.
    + lia.
    + vm_compute. reflexivity.
    + intros p. change (m_positions Sample.yaa_match) with (seqZ 0 4).
      rewrite elem_of_seqZ. unfold len. simpl. lia.
  - apply (proj2 (search_exhaustive Sample.analyzer Sample.yaa)
             [sym_x; Sample.aa] 0 2%nat ∅ Sample.yaa_match 0).
    + lia.
    + vm_compute. reflexivity.
    + left.
    + reflexivity.
Defined.

(** C4 as first stated, for every input string, fails on the empty string:
    with the empty template in the catalog, the match of that template
    consumes exactly the (no) positions of the text, and the result of the
    empty string has no reading. *)
Lemma search_exhaustive_fails_on_empty_text :
  ¬ (∀ (self : ThaiReadingOrderAnalyzer) (text : list char) res pattern start
       cluster used m,
       findThaiGraphemeOrderDomain self text = Ok res →
       pattern ∈ vowel_patterns self →
       (1 ≤ cluster ≤ 3)%nat →
       try_match_pattern_with_foundation self text start pattern used cluster
       = Ok (Some m) →
       (∀ p, p ∈ m_positions m ↔ 0 ≤ p < len text) →
       ∃ rd, rd ∈ readings res ∧ syllables rd = [syllable_of_match m]).
Proof.
  intros Hall.
  destruct (Hall Sample.bare [] Sample.no_analysis [] 0 1%nat ∅ Sample.no_match)
    as (rd & Hrd & _).
  - reflexivity.
  - left.
  - lia.
  - reflexivity.
  - intros p. simpl. rewrite elem_of_nil. unfold len. simpl. lia.
  - by apply elem_of_nil in Hrd.
Qed.

(** ** Instances of the properties on sample data *)

Lemma single_syllable_policy_witness :
  length (syllables Sample.ya_reading) = 1%nat
  ∧ explore_segmentations Sample.analyzer Sample.ya 1 0 (all_positions Sample.ya) [] = Ok [].
Proof.
  split.
  - apply (proj1 (single_syllable_policy Sample.analyzer Sample.ya)
             Sample.ya_analysis Sample.ya_reading).
    + vm_compute. reflexivity.
    + left.
  - apply (proj2 (single_syllable_policy Sample.analyzer Sample.ya)
             0%nat 0 (all_positions Sample.ya) []).
    + reflexivity.
    + simpl. lia.
Defined.

(** C7 as first stated, every attempt at a negative start offset fails, does
    not hold for the empty template: no symbol remains to be consumed, the
    loop with the bounds test is not entered, and the match succeeds (with no
    position) at start offset [-1]. *)
Lemma negative_start_matches_empty_template :
  ¬ (∀ (self : ThaiReadingOrderAnalyzer) (text : list char) start pattern used
       cluster,
       start < 0 →
       try_match_pattern_with_foundation self text start pattern used cluster
       = Ok None).
Proof.
  intros Hall.
  specialize (Hall Sample.analyzer Sample.ya (-1) [] ∅ 1%nat ltac:(lia)).
  discriminate Hall.
Qed.

Lemma template_matcher_bounds_witness :
  match_loop Sample.analyzer Sample.ya 1 [Sample.aa] 2 Sample.no_match = Ok None
  ∧ try_match_pattern_with_foundation Sample.analyzer Sample.ya (-1)
      [Sample.aa; sym_x] ∅ 1 = Ok None.
Proof.
  split.
  - apply (proj1 (template_matcher_bounds Sample.analyzer Sample.ya 1)).
    right. unfold len. simpl. lia.
  - apply (proj1 (proj2 (template_matcher_bounds Sample.analyzer Sample.ya 1))).
    + lia.
    + discriminate.
Defined.

Lemma zero_readings_is_normal_witness :
  ∃ res, findThaiGraphemeOrderDomain Sample.analyzer [Sample.yo] = Ok res
    ∧ (all_readings Sample.analyzer [Sample.yo] = Ok [] →
       readings res = [] ∧ is_ambiguous res = false)
    ∧ ([Sample.yo] = [] → readings res = [] ∧ is_ambiguous res = false).
Proof. apply (zero_readings_is_normal Sample.analyzer [Sample.yo]). Defined.

Example lone_consonant_has_no_reading :
  all_readings Sample.analyzer [Sample.yo] = Ok []
  ∧ findThaiGraphemeOrderDomain Sample.analyzer [Sample.yo]
    = Ok {| res_text := [Sample.yo]; readings := []; is_ambiguous := false;
            unmatched := [] |}.
Proof. split; vm_compute; reflexivity. Qed.

Lemma search_terminates_witness :
  (∃ rs, explore_segmentations Sample.analyzer Sample.yaa 5 0 ∅ [] = Ok rs)
  ∧ (0 ∉ (∅ : gset Z))
  ∧ 0 ∈ (∅ : gset Z) ∪ list_to_set (m_positions Sample.yaa_match)
  ∧ (size (∅ : gset Z)
     < size ((∅ : gset Z) ∪ list_to_set (m_positions Sample.yaa_match))
     ≤ length Sample.yaa)%nat.
Proof.
  split.
  - apply (proj1 (search_terminates Sample.analyzer Sample.yaa)). simpl. lia.
  - apply (proj2 (search_terminates Sample.analyzer Sample.yaa)
             [sym_x; Sample.aa] ∅ Sample.yaa_matches Sample.yaa_match 0).
    + vm_compute. reflexivity.
    + left.
    + left.
    + apply empty_subseteq.
Defined.

Example ya_has_one_reading :
  findThaiGraphemeOrderDomain Sample.analyzer Sample.ya = Ok Sample.ya_analysis
  ∧ matched_text <$> readings Sample.ya_analysis = [Sample.ya]
  ∧ is_ambiguous Sample.ya_analysis = false.
Proof. split_and!; vm_compute; reflexivity. Qed.

Example three_readings_of_elw :
  (λ res, (length (readings res), is_ambiguous res))
    (Sample.analysis_of
       (findThaiGraphemeOrderDomain Sample.analyzer [Sample.e; Sample.lo; Sample.wo]))
  = (3%nat, true).
Proof. vm_compute. reflexivity. Qed.

(** * Further properties of the matchers and of the search *)

(** ** When the group matcher succeeds *)

Section group_success.
Context (self : ThaiReadingOrderAnalyzer) (text : list char).

Lemma foundation_loop_succeeds r found idx fd :
  0 ≤ idx →
  (∀ j, (j < r)%nat →
     ∃ c, text_get text (consonant_pos self text idx j) = Some c
          ∧ c ∈ foundation self) →
  ∃ fd', foundation_loop self text r found idx fd = Ok (Some fd').
Proof.
  revert found idx fd. induction r as [|r IH]; intros found idx fd Hidx Hall.
  { by eexists. }
  rewrite foundation_loop_unfold by done.
  destruct (Hall 0%nat) as (c & Hc & Hin); [lia|]. simpl in Hc. rewrite Hc.
  rewrite decide_True by done. apply IH.
  - pose proof (next_consonant_bounds self text idx). lia.
  - intros j Hj. apply (Hall (S j)). lia.
Qed.

Lemma foundation_loop_fails r found idx fd j :
  0 ≤ idx → (j < r)%nat →
  (∀ c, text_get text (consonant_pos self text idx j) = Some c →
        c ∉ foundation self) →
  foundation_loop self text r found idx fd = Ok None.
Proof.
  intros Hidx Hj Hbad.
  destruct (foundation_loop self text r found idx fd) as [[fd'|]|e] eqn:Hloop;
    [|done|by apply foundation_loop_no_raise in Hloop].
  assert (0 ≤ idx ≤ len text) as Hrange.
  { split; [done|]. destruct r as [|r]; [lia|].
    rewrite foundation_loop_unfold in Hloop by done.
    destruct (text_get text idx) as [c|] eqn:Hc; [|done].
    apply text_get_Some in Hc. lia. }
  apply foundation_loop_shape in Hloop
    as (cs & _ & Hlen & Hget & Hall & _); [|done].
  destruct (lookup_lt_is_Some_2 cs j) as [c Hc]; [lia|].
  destruct (Hbad c); [by rewrite <- Hget|].
  by eapply Forall_lookup_1 in Hall.
Qed.
End group_success.

(** A group of [count] consonants is matched at [start] exactly when [start]
    is a position of the text and each of the [count] places the layout
    gives to a consonant holds a foundation character; otherwise the result
    is [None]. *)
Theorem match_foundation_succeeds_iff (self : ThaiReadingOrderAnalyzer)
    (text : list char) (start : Z) (count : nat) :
  let fits :=
    0 ≤ start < len text
    ∧ ∀ j, (j < count)%nat →
        ∃ c, text_get text (consonant_pos self text start j) = Some c
             ∧ c ∈ foundation self in
  (fits ↔ ∃ fd, match_foundation self text start count = Ok (Some fd))
  ∧ (¬ fits ↔ match_foundation self text start count = Ok None).
Proof.
  simpl.
  assert ((0 ≤ start < len text
           ∧ ∀ j, (j < count)%nat →
               ∃ c, text_get text (consonant_pos self text start j) = Some c
                    ∧ c ∈ foundation self)
          ↔ ∃ fd, match_foundation self text start count = Ok (Some fd)) as Hiff.
  { split.
    - intros [Hstart Hall]. unfold match_foundation.
      rewrite decide_False by lia. apply foundation_loop_succeeds; [lia|done].
    - intros [fd Hfd]. split; [by eapply match_foundation_start|].
      destruct (match_foundation_shape _ _ _ _ _ Hfd) as (Hlen & Hget & Hall & _).
      intros j Hj. destruct (lookup_lt_is_Some_2 (consonants fd) j) as [c Hc]; [lia|].
      exists c. split; [by rewrite <- Hget|]. by eapply Forall_lookup_1 in Hall. }
  split; [done|]. rewrite Hiff. split.
  - intros Hno.
    destruct (match_foundation self text start count) as [[fd|]|e] eqn:Hm;
      [by destruct Hno; eexists|done|by apply match_foundation_no_raise in Hm].
  - intros -> [fd ?]. done.
Qed.

(** ** Rendering a container *)

Section rendering.
Context (self : ThaiReadingOrderAnalyzer) (text : list char).

Lemma text_slice_app start k1 k2 :
  0 ≤ k1 → 0 ≤ k2 → 0 ≤ start →
  text_slice text start (k1 + k2)
  = text_slice text start k1 ++ text_slice text (start + k1) k2.
Proof.
  intros. unfold text_slice.
  rewrite !Z2Nat.inj_add by lia. rewrite <- take_take_drop, drop_drop. done.
Qed.

Lemma text_slice_one start c :
  text_get text start = Some c → text_slice text start 1 = [c].
Proof.
  unfold text_get, text_slice. case_decide; [|done]. intros Hc.
  change (Z.to_nat 1) with 1%nat.
  rewrite (drop_S _ _ _ Hc). done.
Qed.

Lemma text_slice_zero start : text_slice text start 0 = [].
Proof. done. Qed.

(** Consonants that all render as themselves. *)
Lemma join_imap_singletons (f : nat → char → list char) cs :
  (∀ i c, cs !! i = Some c → f i c = [c]) → mjoin (imap f cs) = cs.
Proof.
  revert f. induction cs as [|c cs IH]; intros f Hf; [done|].
  rewrite imap_cons. simpl. rewrite (Hf 0%nat c) by done. simpl. f_equal.
  apply IH. intros i c' Hi. by apply (Hf (S i)).
Qed.

Lemma render_untoned fd :
  tone fd = None → render_foundation (Some fd) = consonants fd.
Proof. intros Ht. simpl. rewrite Ht. by apply join_imap_singletons. Qed.

Lemma render_toned fd t o :
  tone fd = Some t → tone_owner fd = Some o → (o < length (consonants fd))%nat →
  render_foundation (Some fd)
  = take (S o) (consonants fd) ++ [t] ++ drop (S o) (consonants fd).
Proof.
  intros Ht Ho Hlt. simpl. rewrite Ht, Ho.
  destruct (lookup_lt_is_Some_2 (consonants fd) o Hlt) as [c Hc].
  rewrite <- (take_drop_middle _ _ _ Hc) at 1.
  rewrite imap_app, join_app. rewrite (take_S_r _ _ _ Hc), <- !(assoc_L (++)).
  f_equal.
  - apply join_imap_singletons. intros i c' Hi. apply lookup_lt_Some in Hi.
    rewrite length_take in Hi. rewrite decide_False; [done|]. intros [= ?]. lia.
  - rewrite imap_cons. simpl. rewrite length_take_le by lia.
    rewrite Nat.add_0_r, decide_True by done. simpl. do 2 f_equal.
    apply join_imap_singletons. intros i c' _. simpl.
    rewrite decide_False; [done|]. intros [= ?]. lia.
Qed.

(** Without a toned consonant the layout is one position per consonant. *)
Lemma consonant_pos_untoned start n j :
  toned_count self text start n = 0%nat → (j ≤ n)%nat →
  consonant_pos self text start j = start + Z.of_nat j.
Proof.
  revert start j. induction n as [|n IH]; intros start j Hz Hj.
  { assert (j = 0%nat) as -> by lia. simpl. lia. }
  destruct j as [|j]; [simpl; lia|]. simpl in Hz |- *.
  unfold next_consonant in *.
  destruct (tone_after self text start); [lia|].
  rewrite IH by lia. lia.
Qed.

(** The characters of the text at the positions of a group, when the
    consonants are those of [cs]: each consonant, then its tone if any. *)
Lemma group_slice_untoned start n cs :
  0 ≤ start → length cs = n →
  toned_count self text start n = 0%nat →
  (∀ j, (j < n)%nat → cs !! j = text_get text (consonant_pos self text start j)) →
  text_slice text start (Z.of_nat n) = cs.
Proof.
  revert start cs. induction n as [|n IH]; intros start cs Hstart Hlen Hz Hget.
  { by destruct cs. }
  destruct cs as [|c cs]; [done|].
  pose proof (Hget 0%nat ltac:(lia)) as H0. simpl in H0.
  replace (Z.of_nat (S n)) with (1 + Z.of_nat n) by lia.
  rewrite text_slice_app by lia. rewrite (text_slice_one _ c) by done.
  simpl. f_equal. simpl in Hz.
  assert (tone_after self text start = None) as Hnone
    by (destruct (tone_after self text start); [lia|done]).
  rewrite Hnone in Hz. apply IH; [lia|by injection Hlen| |].
  - unfold next_consonant in Hz. by rewrite Hnone in Hz.
  - intros j Hj. specialize (Hget (S j) ltac:(lia)). simpl in Hget.
    unfold next_consonant in Hget. by rewrite Hnone in Hget.
Qed.

Lemma text_slice_two start c t :
  0 ≤ start → text_get text start = Some c → text_get text (start + 1) = Some t →
  text_slice text start 2 = [c; t].
Proof.
  intros ? Hc Ht. change 2 with (1 + 1). rewrite text_slice_app by lia.
  by rewrite (text_slice_one _ c), (text_slice_one _ t).
Qed.

Lemma group_slice_one_tone start n cs j t :
  0 ≤ start → length cs = n → (j < n)%nat →
  tone_after self text (consonant_pos self text start j) = Some t →
  toned_count self text start n = 1%nat →
  (∀ i, (i < n)%nat → cs !! i = text_get text (consonant_pos self text start i)) →
  text_slice text start (Z.of_nat n + 1)
  = take (S j) cs ++ [t] ++ drop (S j) cs.
Proof.
  revert start cs j. induction n as [|n IH]; intros start cs j Hstart Hlen Hj Ht H1 Hget;
    [lia|].
  destruct cs as [|c cs]; [done|]. injection Hlen as Hlen.
  pose proof (Hget 0%nat ltac:(lia)) as H0. simpl in H0. symmetry in H0.
  assert (∀ i, (i < n)%nat →
            cs !! i = text_get text
                        (consonant_pos self text (next_consonant self text start) i))
    as Hget' by (intros i Hi; apply (Hget (S i)); lia).
  simpl in H1. destruct (tone_after self text start) as [t0|] eqn:Ht0.
  - assert (toned_count self text (next_consonant self text start) n = 0%nat)
      as Hz by lia.
    destruct j as [|j].
    + simpl in Ht. assert (t0 = t) as -> by congruence.
      destruct (tone_after_Some _ _ _ _ Ht0) as (Htt & _ & Hnext).
      rewrite Hnext in Hz, Hget'.
      replace (Z.of_nat (S n) + 1) with (2 + Z.of_nat n) by lia.
      rewrite text_slice_app by lia.
      rewrite (text_slice_two _ c t), (group_slice_untoned _ _ cs) by (done || lia).
      done.
    + simpl in Ht. rewrite (toned_count_zero _ _ _ _ _ Hz) in Ht by lia. done.
  - assert (next_consonant self text start = start + 1) as Hnext
      by (unfold next_consonant; by rewrite Ht0).
    rewrite Hnext in *. destruct j as [|j]; [simpl in Ht; congruence|].
    simpl in Ht. rewrite Hnext in Ht.
    replace (Z.of_nat (S n) + 1) with (1 + (Z.of_nat n + 1)) by lia.
    rewrite text_slice_app by lia. rewrite (text_slice_one _ c) by done.
    rewrite (IH (start + 1) cs j) by (done || lia). done.
Qed.

(** The rendering of a matched container from its layout. *)
Lemma match_foundation_render start count fd :
  match_foundation self text start count = Ok (Some fd) →
  (toned_count self text start count = 0%nat
   ∧ render_foundation (Some fd) = consonants fd)
  ∨ (∃ j t, (j < count)%nat
       ∧ tone_after self text (consonant_pos self text start j) = Some t
       ∧ render_foundation (Some fd)
         = take (S j) (consonants fd) ++ [t] ++ drop (S j) (consonants fd)).
Proof.
  intros Hfd.
  destruct (match_foundation_shape _ _ _ _ _ Hfd) as (Hlen & _).
  destruct (match_foundation_tone _ _ _ _ _ Hfd)
    as [(Hz & Hnone & _)|(j & t & Hj & Hta & _ & Htone & Hown)].
  - left. split; [done|]. by apply render_untoned.
  - right. exists j, t. split_and!; [done..|].
    apply render_toned; [done..|lia].
Qed.
End rendering.

(** Rendering undoes matching: the rendering of a container matched at
    [start] is the piece of the text that its positions cover, as long as at
    most one consonant of the group is toned. *)
Theorem render_foundation_round_trip (self : ThaiReadingOrderAnalyzer)
    (text : list char) (start : Z) (count : nat) (fd : Foundation) :
  match_foundation self text start count = Ok (Some fd) →
  (toned_count self text start count ≤ 1)%nat →
  render_foundation (Some fd)
  = text_slice text start (Z.of_nat (length (positions fd))).
Proof.
  intros Hfd Hone.
  pose proof (match_foundation_start _ _ _ _ _ Hfd) as Hstart.
  destruct (match_foundation_shape _ _ _ _ _ Hfd) as (Hlen & Hget & _).
  rewrite (match_foundation_positions_length _ _ _ _ _ Hfd).
  destruct (match_foundation_render _ _ _ _ _ Hfd)
    as [[Hz ->]|(j & t & Hj & Hta & ->)].
  - rewrite Hz, Nat.add_0_r. symmetry.
    by apply (group_slice_untoned self); [lia|..].
  - assert (toned_count self text start count = 1%nat) as H1.
    { pose proof (toned_count_pos self text start count j Hj) as Hpos.
      rewrite Hta in Hpos. specialize (Hpos ltac:(done)). lia. }
    rewrite H1, Nat2Z.inj_add. symmetry.
    by apply (group_slice_one_tone self); [lia|..].
Qed.

Lemma render_foundation_round_trip_witness :
  render_foundation (Some Sample.yaa_container)
  = text_slice Sample.yaa 0 (Z.of_nat (length (positions Sample.yaa_container))).
Proof.
  apply (render_foundation_round_trip Sample.analyzer Sample.yaa 0 2).
  - vm_compute. reflexivity.
  - vm_compute. lia.
Defined.

(** Rendering keeps one tone mark at most. The rendering of a matched
    container has one character per consonant and one more if some consonant
    is toned; with two toned consonants or more it is shorter than the piece
    of text the container covers: every tone mark but the last is lost. *)
Theorem render_foundation_keeps_one_tone (self : ThaiReadingOrderAnalyzer)
    (text : list char) (start : Z) (count : nat) (fd : Foundation) :
  match_foundation self text start count = Ok (Some fd) →
  length (render_foundation (Some fd))
  = (count + Nat.min 1 (toned_count self text start count))%nat
  ∧ ((2 ≤ toned_count self text start count)%nat →
     (length (render_foundation (Some fd)) < length (positions fd))%nat).
Proof.
  intros Hfd.
  destruct (match_foundation_shape _ _ _ _ _ Hfd) as (Hlen & _).
  rewrite (match_foundation_positions_length _ _ _ _ _ Hfd).
  destruct (match_foundation_render _ _ _ _ _ Hfd)
    as [[Hz ->]|(j & t & Hj & Hta & ->)].
  - rewrite Hz, Hlen. simpl. lia.
  - pose proof (toned_count_pos self text start count j Hj) as Hpos.
    rewrite Hta in Hpos. specialize (Hpos ltac:(done)).
    rewrite !length_app, length_take, length_drop, Hlen.
    change (length [t]) with 1%nat. lia.
Qed.

Lemma render_foundation_keeps_one_tone_witness :
  length (render_foundation (Some Sample.two_tones_container))
  = (2 + Nat.min 1 (toned_count Sample.analyzer Sample.two_tones 0 2))%nat
  ∧ ((2 ≤ toned_count Sample.analyzer Sample.two_tones 0 2)%nat →
     (length (render_foundation (Some Sample.two_tones_container))
      < length (positions Sample.two_tones_container))%nat).
Proof.
  apply (render_foundation_keeps_one_tone Sample.analyzer Sample.two_tones 0 2).
  vm_compute. reflexivity.
Defined.

(** ** The text a match consumes *)

Section match_text.
Context (self : ThaiReadingOrderAnalyzer) (text : list char).

Lemma match_loop_vowel_text cluster symbols text_idx acc m :
  match_loop self text cluster symbols text_idx acc = Ok (Some m) →
  m_vowel_text m = m_vowel_text acc ++ literals symbols.
Proof.
  revert text_idx acc. unfold literals.
  induction symbols as [|p_char symbols IH]; intros text_idx acc Hm.
  { injection Hm as <-. by rewrite filter_nil, (right_id_L [] (++)). }
  simpl in Hm. case_decide; [done|]. case_decide as Hx.
  - destruct (match_foundation self text text_idx cluster) as [[fd|]|e'];
      simpl in Hm; [|done..].
    apply IH in Hm as ->. simpl.
    rewrite filter_cons_False; [done|]. intros [? _]. done.
  - case_decide as Hf.
    + destruct (match_foundation self text text_idx 1) as [[fd|]|e'];
        simpl in Hm; [|done..].
      apply IH in Hm as ->. simpl.
      rewrite filter_cons_False; [done|]. intros [_ ?]. done.
    + case_decide; [|done].
      destruct (char_at text text_idx) as [c|]; simpl in Hm; [|done].
      case_decide as Hc; [|done]. subst c.
      apply IH in Hm as ->. simpl. rewrite filter_cons_True by done.
      by rewrite <- (assoc_L (++)).
Qed.

Lemma match_loop_foundation_unchanged cluster symbols text_idx acc m :
  sym_x ∉ symbols →
  match_loop self text cluster symbols text_idx acc = Ok (Some m) →
  m_foundation m = m_foundation acc.
Proof.
  revert text_idx acc.
  induction symbols as [|p_char symbols IH]; intros text_idx acc.
  { simpl. by intros _ [= <-]. }
  intros [Hx Hnx]%not_elem_of_cons. simpl.
  case_decide; [done|]. case_decide; [done|]. case_decide.
  - destruct (match_foundation self text text_idx 1) as [[fd|]|e']; simpl;
      [|done..].
    by intros ->%IH.
  - case_decide; [|done].
    destruct (char_at text text_idx) as [c|]; simpl; [|done].
    case_decide; [|done]. by intros ->%IH.
Qed.

Lemma match_loop_final_unchanged cluster symbols text_idx acc m :
  sym_f ∉ symbols →
  match_loop self text cluster symbols text_idx acc = Ok (Some m) →
  m_final m = m_final acc.
Proof.
  revert text_idx acc.
  induction symbols as [|p_char symbols IH]; intros text_idx acc.
  { simpl. by intros _ [= <-]. }
  intros [Hf Hnf]%not_elem_of_cons. simpl.
  case_decide; [done|]. case_decide.
  - destruct (match_foundation self text text_idx cluster) as [[fd|]|e']; simpl;
      [|done..].
    by intros ->%IH.
  - case_decide; [done|]. case_decide; [|done].
    destruct (char_at text text_idx) as [c|]; simpl; [|done].
    case_decide; [|done]. by intros ->%IH.
Qed.

Lemma at_most_once_here c symbols : at_most_once c (c :: symbols) → c ∉ symbols.
Proof.
  unfold at_most_once. rewrite filter_cons_True by done. simpl. intros Hle Hin.
  assert (filter (λ y, y = c) symbols = []) as Hnil
    by (destruct (filter (λ y, y = c) symbols); [done|simpl in Hle; lia]).
  by eapply (filter_nil_not_elem_of _ _ c) in Hnil.
Qed.

Lemma at_most_once_further c d symbols :
  at_most_once c (d :: symbols) → at_most_once c symbols.
Proof.
  unfold at_most_once. rewrite filter_cons. case_decide; simpl; lia.
Qed.

(** A container that renders without loss renders to the piece of text it
    covers. *)
Lemma lossless_render start count fd :
  match_foundation self text start count = Ok (Some fd) →
  lossless (Some fd) →
  render_foundation (Some fd)
  = text_slice text start (Z.of_nat (length (positions fd))).
Proof.
  intros Hfd Hloss. specialize (Hloss fd eq_refl).
  pose proof (match_foundation_start _ _ _ _ _ Hfd) as Hstart.
  destruct (match_foundation_shape _ _ _ _ _ Hfd) as (Hlen & Hget & _).
  rewrite (match_foundation_positions_length _ _ _ _ _ Hfd) in Hloss |- *.
  destruct (match_foundation_render _ _ _ _ _ Hfd)
    as [[Hz Hr]|(j & t & Hj & Hta & Hr)]; rewrite Hr in Hloss |- *.
  - rewrite Hz, Nat.add_0_r. symmetry.
    by apply (group_slice_untoned self); [lia|..].
  - rewrite !length_app, length_take, length_drop, Hlen in Hloss.
    change (length [t]) with 1%nat in Hloss.
    assert (toned_count self text start count = 1%nat) as H1 by lia.
    rewrite H1, Nat2Z.inj_add. symmetry.
    by apply (group_slice_one_tone self); [lia|..].
Qed.

(** The text of a match is a rearrangement of the piece of text it consumes,
    when each placeholder occurs once at most and no container loses a tone
    mark. *)
Lemma match_loop_text cluster symbols text_idx acc m :
  match_loop self text cluster symbols text_idx acc = Ok (Some m) →
  (1 ≤ cluster)%nat ∨ sym_x ∉ symbols →
  at_most_once sym_x symbols → at_most_once sym_f symbols →
  (sym_x ∈ symbols → m_foundation acc = None) →
  (sym_f ∈ symbols → m_final acc = None) →
  lossless (m_foundation m) → lossless (m_final m) →
  ∃ k, 0 ≤ k
    ∧ m_positions m = m_positions acc ++ seqZ text_idx k
    ∧ (symbols ≠ [] → 0 ≤ text_idx)
    ∧ match_text m ≡ₚ match_text acc ++ text_slice text text_idx k.
Proof.
  revert text_idx acc.
  induction symbols as [|p_char symbols IH];
    intros text_idx acc Hm Hcl Hox Hof Hax Haf Hlx Hlf.
  { simpl in Hm. injection Hm as <-. exists 0.
    rewrite seqZ_nil, text_slice_zero, !(right_id_L [] (++)) by done. done. }
  assert ((1 ≤ cluster)%nat ∨ sym_x ∉ symbols) as Hcl'.
  { destruct Hcl as [?|[_ ?]%not_elem_of_cons]; auto. }
  pose proof (at_most_once_further _ _ _ Hox) as Hox'.
  pose proof (at_most_once_further _ _ _ Hof) as Hof'.
  simpl in Hm. case_decide as Hrange; [done|]. case_decide as Hx.
  - subst p_char. apply at_most_once_here in Hox.
    destruct Hcl as [Hcl|Hnx]; [|by apply not_elem_of_cons in Hnx as [? _]].
    destruct (match_foundation self text text_idx cluster) as [[fd|]|e'] eqn:Hfd;
      simpl in Hm; [|done..].
    pose proof (match_loop_foundation_unchanged _ _ _ _ _ Hox Hm) as Hsame.
    simpl in Hsame. pose proof Hlx as Hlfd. rewrite Hsame in Hlfd.
    destruct (cursor_after_group _ _ _ _ _ Hcl Hfd) as [Hcur Hlt].
    destruct (match_foundation_shape _ _ _ _ _ Hfd) as (_ & _ & _ & Hpos & Hend).
    assert (sym_f ∈ symbols → m_final acc = None) as Haf'
      by (intros ?; apply Haf; by right).
    destruct (IH _ _ Hm Hcl' Hox' Hof' ltac:(done) Haf' Hlx Hlf)
      as (k & Hk & Hmp & _ & Hperm).
    cbn [m_positions] in Hmp. rewrite Hcur in Hmp, Hperm.
    set (q := consonant_pos self text text_idx cluster) in *.
    exists ((q - text_idx) + k). split_and!; [lia| |lia|].
    + rewrite Hmp, Hpos, <- (assoc_L (++)), seqZ_app by lia.
      do 3 f_equal. lia.
    + rewrite Hperm. unfold match_text at 1 2.
      cbn [m_foundation m_vowel_text m_final].
      rewrite (lossless_render _ _ _ Hfd Hlfd), Hpos, length_seqZ, Z2Nat.id by lia.
      rewrite Hax by by left.
      change (render_foundation None) with ([] : list char).
      rewrite text_slice_app by lia.
      replace (text_idx + (q - text_idx)) with q by lia.
      rewrite (left_id_L [] (++)), <- !(assoc_L (++)).
      rewrite !(assoc_L (++) (m_vowel_text acc)).
      apply Permutation_app_swap_app.
  - case_decide as Hf.
    + subst p_char. apply at_most_once_here in Hof.
      destruct (match_foundation self text text_idx 1) as [[fd|]|e'] eqn:Hfd;
        simpl in Hm; [|done..].
      pose proof (match_loop_final_unchanged _ _ _ _ _ Hof Hm) as Hsame.
      simpl in Hsame. pose proof Hlf as Hlfd. rewrite Hsame in Hlfd.
      destruct (cursor_after_group _ _ _ _ _ (le_n 1) Hfd) as [Hcur Hlt].
      destruct (match_foundation_shape _ _ _ _ _ Hfd) as (_ & _ & _ & Hpos & Hend).
      assert (sym_x ∈ symbols → m_foundation acc = None) as Hax'
        by (intros ?; apply Hax; by right).
      destruct (IH _ _ Hm Hcl' Hox' Hof' Hax' ltac:(done) Hlx Hlf)
        as (k & Hk & Hmp & _ & Hperm).
      cbn [m_positions] in Hmp. rewrite Hcur in Hmp, Hperm.
      set (q := consonant_pos self text text_idx 1) in *.
      exists ((q - text_idx) + k). split_and!; [lia| |lia|].
      * rewrite Hmp, Hpos, <- (assoc_L (++)), seqZ_app by lia.
        do 3 f_equal. lia.
      * rewrite Hperm. unfold match_text at 1 2.
        cbn [m_foundation m_vowel_text m_final].
        rewrite (lossless_render _ _ _ Hfd Hlfd), Hpos, length_seqZ, Z2Nat.id
          by lia.
        rewrite Haf by by left.
        change (render_foundation None) with ([] : list char).
        rewrite text_slice_app by lia.
        replace (text_idx + (q - text_idx)) with q by lia.
        rewrite (right_id_L [] (++)), <- !(assoc_L (++)). done.
    + case_decide; [|done].
      destruct (char_at text text_idx) as [c|] eqn:Hc; simpl in Hm; [|done].
      apply char_at_Ok in Hc.
      case_decide; [|done].
      assert (sym_x ∈ symbols → m_foundation acc = None) as Hax'
        by (intros ?; apply Hax; by right).
      assert (sym_f ∈ symbols → m_final acc = None) as Haf'
        by (intros ?; apply Haf; by right).
      destruct (IH _ _ Hm Hcl' Hox' Hof' Hax' Haf' Hlx Hlf)
        as (k & Hk & Hmp & _ & Hperm).
      cbn [m_positions] in Hmp.
      exists (1 + k). split_and!; [lia| |lia|].
      * rewrite Hmp, <- (assoc_L (++)), seqZ_app by lia. by f_equal.
      * rewrite Hperm. unfold match_text at 1 2.
        cbn [m_foundation m_vowel_text m_final].
        rewrite text_slice_app, (text_slice_one _ _ c) by (done || lia).
        rewrite <- !(assoc_L (++)). do 2 f_equiv.
        rewrite !(assoc_L (++) _ _ (text_slice _ _ _)). f_equiv.
        apply Permutation_app_comm.
Qed.
End match_text.

(** The vowel text of a match is fixed by the pattern: it is the pattern
    without its placeholders, whatever the text and the cluster size. *)
Theorem vowel_text_is_pattern_literals (self : ThaiReadingOrderAnalyzer)
    (text : list char) (start : Z) (pattern : list char) (used : gset Z)
    (cluster : nat) (m : Match) :
  try_match_pattern_with_foundation self text start pattern used cluster
  = Ok (Some m) →
  m_vowel_text m = literals pattern ∧ m_pattern m = pattern.
Proof.
  intros Hm. split.
  - by apply match_loop_vowel_text in Hm.
  - by apply match_loop_containers in Hm as (? & _).
Qed.

Lemma vowel_text_is_pattern_literals_witness :
  m_vowel_text Sample.yaa_match = literals [sym_x; Sample.aa]
  ∧ m_pattern Sample.yaa_match = [sym_x; Sample.aa].
Proof.
  apply (vowel_text_is_pattern_literals Sample.analyzer Sample.yaa 0
           [sym_x; Sample.aa] ∅ 2).
  vm_compute. reflexivity.
Defined.

(** A match of a non-empty pattern, for a cluster size of one or more (or a
    pattern without ['x']), consumes consecutive positions
    [start, ..., start + k - 1] that lie inside the text, at least one per
    symbol of the pattern, each once. *)
Theorem match_consumes_a_run (self : ThaiReadingOrderAnalyzer)
    (text : list char) (start : Z) (pattern : list char) (used : gset Z)
    (cluster : nat) (m : Match) :
  try_match_pattern_with_foundation self text start pattern used cluster
  = Ok (Some m) →
  (1 ≤ cluster)%nat ∨ sym_x ∉ pattern →
  pattern ≠ [] →
  ∃ k, len pattern ≤ k
    ∧ m_positions m = seqZ start k
    ∧ 0 ≤ start ∧ start + k ≤ len text
    ∧ NoDup (m_positions m).
Proof.
  intros Hm Hcl Hne.
  apply match_loop_positions in Hm as (k & Hk & Hpos & _ & Hin); [|done].
  simpl in Hpos. exists k. rewrite Hpos.
  destruct (Hin Hne). split_and!; [done..|apply NoDup_seqZ].
Qed.

Lemma match_consumes_a_run_witness :
  ∃ k, len [sym_x; Sample.aa] ≤ k
    ∧ m_positions Sample.yaa_match = seqZ 0 k
    ∧ 0 ≤ 0 ∧ 0 + k ≤ len Sample.yaa
    ∧ NoDup (m_positions Sample.yaa_match).
Proof.
  apply (match_consumes_a_run Sample.analyzer Sample.yaa 0 [sym_x; Sample.aa] ∅ 2).
  - vm_compute. reflexivity.
  - left. lia.
  - discriminate.
Defined.

(** ** The matched text of a reading *)

Section matched_text.
Context (self : ThaiReadingOrderAnalyzer) (text : list char).

Lemma join_syllable_tokens m :
  mjoin (syllable_tokens (syllable_of_match m)) = match_text m.
Proof.
  unfold syllable_tokens, match_text. cbn [syllable_of_match syl_foundation
    syl_vowel syl_final].
  rewrite !join_app. f_equal; [|f_equal].
  - case_decide as Hr; [by rewrite Hr|]. simpl. by rewrite (right_id_L [] (++)).
  - case_decide as Hv; [by rewrite Hv|]. simpl. by rewrite (right_id_L [] (++)).
  - destruct (m_final m); [|done]. simpl mjoin. by rewrite (right_id_L [] (++)).
Qed.

Lemma matched_text_single m :
  matched_text (build_reading [syllable_of_match m]) = match_text m.
Proof.
  unfold build_reading. cbn [matched_text]. rewrite <- join_syllable_tokens.
  simpl. by rewrite !(right_id_L [] (++)).
Qed.

Lemma analysis_reading_built res rd :
  findThaiGraphemeOrderDomain self text = Ok res → rd ∈ readings res →
  rd = build_reading (syllables rd).
Proof.
  intros Hres Hrd. destruct (decide (text = [])) as [->|Hne].
  { injection Hres as <-. by apply elem_of_nil in Hrd. }
  destruct (analysis_nonempty _ _ _ Hne Hres) as (raw & _ & ->). simpl in Hrd.
  by apply unique_loop_elem in Hrd as (? & _).
Qed.

Lemma text_slice_all : text_slice text 0 (len text) = text.
Proof.
  unfold text_slice, len. rewrite Nat2Z.id. simpl. by rewrite take_ge.
Qed.

Lemma try_match_text pattern cluster m :
  try_match_pattern_with_foundation self text 0 pattern ∅ cluster = Ok (Some m) →
  (1 ≤ cluster)%nat ∨ sym_x ∉ pattern →
  m_positions m = seqZ 0 (len text) →
  at_most_once sym_x pattern → at_most_once sym_f pattern →
  lossless (m_foundation m) → lossless (m_final m) →
  match_text m ≡ₚ text.
Proof.
  intros Hm Hcl Hpos Hox Hof Hlx Hlf.
  apply match_loop_text in Hm as (k & Hk & Hmp & _ & Hperm); try done.
  simpl in Hmp. rewrite Hpos in Hmp.
  assert (k = len text) as ->.
  { apply (f_equal length) in Hmp. rewrite !length_seqZ in Hmp. unfold len in *. lia. }
  rewrite Hperm. unfold match_text at 1. simpl. apply reflexive_eq, text_slice_all.
Qed.
End matched_text.

(** The matched text of a returned reading is a rearrangement of the input
    text (foundation first, then vowel, then final), provided the pattern of
    its syllable holds each placeholder once at most and none of its
    containers loses a tone mark in rendering. *)
Theorem matched_text_rearranges_text (self : ThaiReadingOrderAnalyzer)
    (text : list char) (res : Analysis) (rd : Reading) :
  findThaiGraphemeOrderDomain self text = Ok res → rd ∈ readings res →
  (∀ syllable, syllable ∈ syllables rd →
     at_most_once sym_x (syl_pattern syllable)
     ∧ at_most_once sym_f (syl_pattern syllable)
     ∧ lossless (syl_foundation syllable)
     ∧ lossless (syl_final syllable)) →
  matched_text rd ≡ₚ text.
Proof.
  intros Hres Hrd Hok.
  destruct (analysis_reading_match _ _ _ _ Hres Hrd)
    as (pattern & cluster & m & _ & Hcl & Hm & Hpos & Hsyl).
  rewrite (analysis_reading_built _ _ _ _ Hres Hrd), Hsyl, matched_text_single.
  destruct (Hok (syllable_of_match m)) as (Hox & Hof & Hlx & Hlf).
  { rewrite Hsyl. by left. }
  simpl in Hox, Hof, Hlx, Hlf.
  rewrite (try_match_pattern _ _ _ _ _ _ _ Hm) in Hox, Hof.
  eapply try_match_text; [done|by eapply cluster_sizes_spec|done..].
Qed.

Lemma matched_text_rearranges_text_witness :
  matched_text (build_reading [syllable_of_match Sample.yaa_match])
  ≡ₚ Sample.yaa.
Proof.
  apply (matched_text_rearranges_text Sample.analyzer Sample.yaa
           Sample.yaa_analysis).
  - vm_compute. reflexivity.
  - left.
  - intros syllable ->%list_elem_of_singleton.
    split_and!.
    + unfold at_most_once. vm_compute. lia.
    + unfold at_most_once. vm_compute. lia.
    + intros fd [= <-]. reflexivity.
    + intros fd [=].
Defined.

(** ** The matches of one pattern *)

(** Every match that [find_pattern_matches] returns for a non-empty pattern
    was found at a start offset inside the text (the five negative offsets
    of the loop give nothing), and its positions are the consecutive
    positions from that offset on, inside the text and none of them used. *)
Theorem returned_matches_fit (self : ThaiReadingOrderAnalyzer) (text : list char)
    (pattern : list char) (used : gset Z) (ms : list Match) (m : Match) :
  find_pattern_matches self text pattern used = Ok ms → m ∈ ms →
  pattern ≠ [] →
  ∃ start k cluster,
    0 ≤ start ∧ start + k ≤ len text ∧ len pattern ≤ k
    ∧ try_match_pattern_with_foundation self text start pattern used cluster
      = Ok (Some m)
    ∧ m_positions m = seqZ start k
    ∧ ∀ p, p ∈ m_positions m → p ∉ used.
Proof.
  intros Hms Hm Hne.
  apply (find_pattern_matches_elem _ _ _ _ _ _ Hms) in Hm
    as (start & cluster & _ & Hcl%cluster_sizes_spec & Hm & Hfree).
  destruct (match_loop_positions _ _ _ _ _ _ _ Hcl Hm) as (k & Hk & Hpos & _ & Hin).
  destruct (Hin Hne). exists start, k, cluster.
  split_and!; [done..|by apply conflicts_false].
Qed.

Lemma returned_matches_fit_witness :
  ∃ start k cluster,
    0 ≤ start ∧ start + k ≤ len Sample.yaa ∧ len [sym_x; Sample.aa] ≤ k
    ∧ try_match_pattern_with_foundation Sample.analyzer Sample.yaa start
        [sym_x; Sample.aa] ∅ cluster = Ok (Some Sample.yaa_match)
    ∧ m_positions Sample.yaa_match = seqZ start k
    ∧ ∀ p, p ∈ m_positions Sample.yaa_match → p ∉ (∅ : gset Z).
Proof.
  apply (returned_matches_fit Sample.analyzer Sample.yaa [sym_x; Sample.aa] ∅
           Sample.yaa_matches).
  - vm_compute. reflexivity.
  - left.
  - discriminate.
Defined.

(** Using more positions only removes matches: a match returned for a used
    set is returned for every smaller used set. *)
Theorem fewer_matches_with_more_used (self : ThaiReadingOrderAnalyzer)
    (text : list char) (pattern : list char) (used used' : gset Z)
    (ms ms' : list Match) (m : Match) :
  used ⊆ used' →
  find_pattern_matches self text pattern used = Ok ms →
  find_pattern_matches self text pattern used' = Ok ms' →
  m ∈ ms' → m ∈ ms.
Proof.
  intros Hsub Hms Hms' Hm.
  apply (find_pattern_matches_elem _ _ _ _ _ _ Hms') in Hm
    as (start & cluster & Hstart & Hcl & Hm & Hfree).
  apply (find_pattern_matches_elem _ _ _ _ _ _ Hms).
  exists start, cluster. split_and!; [lia|lia|done|done|].
  apply conflicts_false. intros p Hp Hin.
  eapply (proj1 (conflicts_false _ _) Hfree); [done|]. by apply Hsub.
Qed.

Lemma fewer_matches_with_more_used_witness :
  Sample.yaa_match ∈ Sample.yaa_matches.
Proof.
  apply (fewer_matches_with_more_used Sample.analyzer Sample.yaa
           [sym_x; Sample.aa] ∅ {[9]} Sample.yaa_matches Sample.yaa_matches).
  - apply empty_subseteq.
  - vm_compute. reflexivity.
  - vm_compute. reflexivity.
  - left.
Defined.

(** ** States of the search *)

(** The position a state looks at is the first position from [pos] on that
    is not used, or a position past the text when there is none. *)
Theorem search_looks_at_first_free_position (text : list char) (used : gset Z)
    (pos : Z) :
  let p := skip_used (len text) used (Z.to_nat (len text - pos)) pos in
  pos ≤ p
  ∧ (p < len text → p ∉ used)
  ∧ ∀ q, pos ≤ q < p → q < len text ∧ q ∈ used.
Proof.
  destruct (skip_used_exit text used (Z.to_nat (len text - pos)) pos (le_n _))
    as (Hle & Hfree & Hused).
  simpl. split_and!; [done| |done]. intros Hlt Hin. by apply Hfree.
Qed.

(** A state that already holds a syllable, and whose used positions are
    positions of the text, emits nothing while some position of the text is
    still unused, whatever is explored from it: a reading of two syllables
    or more is never produced. *)
Theorem second_syllable_is_never_emitted (self : ThaiReadingOrderAnalyzer)
    (text : list char) (fuel : nat) (pos : Z) (used : gset Z)
    (current : list Syllable) (rs : list (list Syllable)) (p : Z) :
  explore_segmentations self text fuel pos used current = Ok rs →
  current ≠ [] →
  used ⊆ all_positions text →
  0 ≤ p < len text → p ∉ used →
  rs = [].
Proof.
  intros Hrs Hcur Hsub Hp Hfree.
  assert (size used ≠ length text) as Hsize.
  { assert (used ⊂ all_positions text) as Hlt%subset_size.
    { split; [done|]. intros Hall. apply Hfree, Hall.
      by apply elem_of_all_positions. }
    rewrite size_all_positions in Hlt. lia. }
  destruct rs as [|r rs]; [done|].
  destruct (explore_emits _ _ _ _ _ _ _ r Hrs) as [_ [[_ ?]|[? _]]];
    [by left|done..].
Qed.

Lemma second_syllable_is_never_emitted_witness :
  (match explore_segmentations Sample.analyzer Sample.yaa 5 0 {[0]}
           [Sample.ya_syllable] with
   | Ok rs => rs
   | Raise _ => [[]]
   end) = [].
Proof.
  apply (second_syllable_is_never_emitted Sample.analyzer Sample.yaa 5 0 {[0]}
           [Sample.ya_syllable] _ 1).
  - vm_compute. reflexivity.
  - discriminate.
  - intros q ->%elem_of_singleton. apply elem_of_all_positions.
    vm_compute. split; [discriminate|reflexivity].
  - vm_compute. split; [discriminate|reflexivity].
  - intros Hin%elem_of_singleton. discriminate.
Defined.

(** ** How many readings *)

Section counting.
Context (self : ThaiReadingOrderAnalyzer) (text : list char).

(** The syllables a pattern can give: one for each cluster size tried whose
    match at offset [0] succeeds. *)
Let candidates (pattern : list char) : list (list Syllable) :=
  cluster_sizes text pattern ≫= λ cluster,
    match try_match_pattern_with_foundation self text 0 pattern ∅ cluster with
    | Ok (Some m) => [[syllable_of_match m]]
    | _ => []
    end.

Lemma cluster_sizes_length pattern : (length (cluster_sizes text pattern) ≤ 3)%nat.
Proof.
  unfold cluster_sizes. case_decide; [rewrite length_seq; lia|simpl; lia].
Qed.

Lemma candidates_length pattern : (length (candidates pattern) ≤ 3)%nat.
Proof.
  unfold candidates.
  trans (length (cluster_sizes text pattern)); [|apply cluster_sizes_length].
  generalize (cluster_sizes text pattern). intros cs.
  induction cs as [|c cs IH]; [simpl; lia|].
  rewrite bind_cons, length_app.
  destruct (try_match_pattern_with_foundation self text 0 pattern ∅ c)
    as [[m|]|]; simpl in *; lia.
Qed.

Lemma all_candidates_length :
  (length (vowel_patterns self ≫= candidates) ≤ 3 * length (vowel_patterns self))%nat.
Proof.
  generalize (vowel_patterns self). intros ps.
  induction ps as [|p ps IH]; [simpl; lia|].
  rewrite bind_cons, length_app. pose proof (candidates_length p).
  cbn [length]. lia.
Qed.

Lemma reading_is_candidate res rd :
  findThaiGraphemeOrderDomain self text = Ok res → rd ∈ readings res →
  syllables rd ∈ vowel_patterns self ≫= candidates.
Proof.
  intros Hres Hrd.
  destruct (analysis_reading_match _ _ _ _ Hres Hrd)
    as (pattern & cluster & m & Hpat & Hcl & Hm & _ & ->).
  apply list_elem_of_bind. exists pattern. split; [|done].
  apply list_elem_of_bind. exists cluster. split; [|done].
  rewrite Hm. by left.
Qed.

Lemma readings_NoDup res :
  findThaiGraphemeOrderDomain self text = Ok res →
  NoDup (syllables <$> readings res).
Proof.
  intros Hres. destruct (decide (text = [])) as [->|Hne].
  { injection Hres as <-. constructor. }
  destruct (analysis_nonempty _ _ _ Hne Hres) as (raw & _ & ->).
  apply unique_loop_NoDup.
Qed.

Lemma readings_count res :
  findThaiGraphemeOrderDomain self text = Ok res →
  (length (readings res) ≤ 3 * length (vowel_patterns self))%nat.
Proof.
  intros Hres.
  trans (length (vowel_patterns self ≫= candidates));
    [|apply all_candidates_length].
  rewrite <- (length_fmap syllables). apply submseteq_length, NoDup_submseteq.
  - by apply readings_NoDup.
  - intros r (rd & -> & Hrd)%list_elem_of_fmap. by eapply reading_is_candidate.
Qed.
Lemma readings_count_pattern res pattern :
  findThaiGraphemeOrderDomain self text = Ok res →
  (length (filter (λ rd, syl_pattern <$> syllables rd = [pattern])
             (readings res)) ≤ 3)%nat.
Proof.
  intros Hres.
  trans (length (candidates pattern)); [|apply candidates_length].
  rewrite <- (length_fmap syllables). apply submseteq_length, NoDup_submseteq.
  - apply (sublist_NoDup _ (syllables <$> readings res));
      [by apply readings_NoDup|].
    apply fmap_sublist, sublist_filter.
  - intros r (rd & -> & [Hp Hrd]%list_elem_of_filter)%list_elem_of_fmap.
    destruct (analysis_reading_match _ _ _ _ Hres Hrd)
      as (pattern' & cluster & m & _ & Hcl & Hm & _ & Hsyl).
    rewrite Hsyl in Hp |- *. injection Hp as Hp.
    rewrite (try_match_pattern _ _ _ _ _ _ _ Hm) in Hp. subst pattern'.
    apply list_elem_of_bind. exists cluster. split; [|done].
    rewrite Hm. by left.
Qed.
End counting.

(** A text has at most three readings per pattern of the catalog: one for
    each cluster size of a pattern with ['x'], one for a pattern without.
    So for every pattern at most three readings have a syllable of that
    pattern, and there are at most three times as many readings as the
    catalog has patterns. *)
Theorem at_most_three_readings_per_pattern (self : ThaiReadingOrderAnalyzer)
    (text : list char) (res : Analysis) :
  findThaiGraphemeOrderDomain self text = Ok res →
  (∀ pattern,
     (length (filter (λ rd, syl_pattern <$> syllables rd = [pattern])
                (readings res)) ≤ 3)%nat)
  ∧ (length (readings res) ≤ 3 * length (vowel_patterns self))%nat.
Proof.
  intros Hres. split.
  - intros pattern. by apply (readings_count_pattern self text).
  - by apply (readings_count self text).
Qed.

Lemma at_most_three_readings_per_pattern_witness :
  (length (filter (λ rd, syl_pattern <$> syllables rd = [[sym_x; Sample.aa]])
             (readings Sample.yaa_analysis)) ≤ 3)%nat
  ∧ (length (readings Sample.yaa_analysis)
     ≤ 3 * length (vowel_patterns Sample.analyzer))%nat.
Proof.
  destruct (at_most_three_readings_per_pattern Sample.analyzer Sample.yaa
              Sample.yaa_analysis) as [Hper Hall].
  - vm_compute. reflexivity.
  - split; [apply Hper|exact Hall].
Defined.

(** ** Ambiguity *)

Section ambiguity.
Context (self : ThaiReadingOrderAnalyzer) (text : list char).

Lemma covers_syllable_inj p1 c1 m1 p2 c2 m2 :
  covers self text p1 c1 m1 → covers self text p2 c2 m2 →
  syllable_of_match m1 = syllable_of_match m2 →
  p1 = p2 ∧ c1 = c2.
Proof.
  intros (_ & Hc1 & Hm1 & _) (_ & Hc2 & Hm2 & _) Hsyl.
  assert (p1 = p2) as <-.
  { rewrite <- (try_match_pattern _ _ _ _ _ _ _ Hm1),
      <- (try_match_pattern _ _ _ _ _ _ _ Hm2).
    by apply (f_equal syl_pattern) in Hsyl. }
  split; [done|]. apply (f_equal syl_foundation) in Hsyl. simpl in Hsyl.
  unfold cluster_sizes in Hc1, Hc2. case_decide as Hx.
  - destruct (try_match_foundation _ _ _ _ _ _ _ Hm1)
      as [[_ ?]|(i1 & fd1 & Hs1 & Hf1)]; [done|].
    destruct (try_match_foundation _ _ _ _ _ _ _ Hm2)
      as [[_ ?]|(i2 & fd2 & Hs2 & Hf2)]; [done|].
    apply match_foundation_shape in Hf1 as (<- & _).
    apply match_foundation_shape in Hf2 as (<- & _).
    congruence.
  - apply list_elem_of_singleton in Hc1, Hc2. congruence.
Qed.

Lemma covers_empty_text p c m :
  text = [] → covers self text p c m → p = [] ∧ c = 0%nat.
Proof.
  intros -> (_ & Hc & Hm & _). destruct p as [|p_char symbols].
  - split; [done|]. by apply list_elem_of_singleton in Hc.
  - unfold try_match_pattern_with_foundation in Hm.
    rewrite match_loop_out_of_range in Hm; [done|]. unfold len. simpl. lia.
Qed.

Lemma reading_covers res rd :
  findThaiGraphemeOrderDomain self text = Ok res → rd ∈ readings res →
  ∃ p c m, covers self text p c m ∧ syllables rd = [syllable_of_match m].
Proof.
  intros Hres Hrd.
  destruct (analysis_reading_match _ _ _ _ Hres Hrd)
    as (p & c & m & ? & ? & ? & ? & ?).
  exists p, c, m. by repeat split.
Qed.

Lemma covers_reading res p c m :
  text ≠ [] →
  findThaiGraphemeOrderDomain self text = Ok res → covers self text p c m →
  build_reading [syllable_of_match m] ∈ readings res.
Proof.
  intros Hne Hres (Hp & Hc & Hm & Hpos).
  destruct (analysis_nonempty _ _ _ Hne Hres) as (raw & Hraw & ->). simpl.
  apply unique_loop_complete; [|by intros ?%elem_of_nil].
  apply (all_readings_elem _ _ _ _ Hne Hraw). by exists p, c, m.
Qed.

Lemma is_ambiguous_length res :
  findThaiGraphemeOrderDomain self text = Ok res →
  is_ambiguous res = true ↔ (1 < length (readings res))%nat.
Proof.
  intros Hres. destruct (decide (text = [])) as [->|Hne].
  { injection Hres as <-. simpl. split; [done|lia]. }
  destruct (analysis_nonempty _ _ _ Hne Hres) as (raw & _ & ->). simpl.
  apply bool_decide_eq_true.
Qed.

Lemma two_elements_length {A} (l : list A) x y :
  x ∈ l → y ∈ l → x ≠ y → (1 < length l)%nat.
Proof.
  intros Hx Hy Hne. destruct l as [|a [|b l]]; simpl; [|..|lia].
  - by apply elem_of_nil in Hx.
  - apply list_elem_of_singleton in Hx, Hy. congruence.
Qed.

Lemma ambiguous_two_covers res :
  findThaiGraphemeOrderDomain self text = Ok res →
  is_ambiguous res = true ↔
    ∃ p1 c1 m1 p2 c2 m2,
      covers self text p1 c1 m1 ∧ covers self text p2 c2 m2
      ∧ (p1 ≠ p2 ∨ c1 ≠ c2).
Proof.
  intros Hres. rewrite (is_ambiguous_length _ Hres). split.
  - intros Hlen.
    destruct (readings res) as [|rd1 [|rd2 rds]] eqn:Hrds; simpl in Hlen; [lia..|].
    assert (rd1 ∈ readings res) as H1 by (rewrite Hrds; by left).
    assert (rd2 ∈ readings res) as H2 by (rewrite Hrds; right; by left).
    destruct (reading_covers _ _ Hres H1) as (p1 & c1 & m1 & Hc1 & Hs1).
    destruct (reading_covers _ _ Hres H2) as (p2 & c2 & m2 & Hc2 & Hs2).
    exists p1, c1, m1, p2, c2, m2. split_and!; [done..|].
    destruct (decide (p1 = p2)) as [->|]; [|by left].
    destruct (decide (c1 = c2)) as [->|]; [|by right].
    exfalso. pose proof (readings_NoDup _ _ _ Hres) as Hnd.
    rewrite Hrds, !fmap_cons in Hnd. apply NoDup_cons in Hnd as [Hnin _].
    apply Hnin.
    assert (m1 = m2) as ->
      by (destruct Hc1 as (_ & _ & Hm1 & _), Hc2 as (_ & _ & Hm2 & _); congruence).
    rewrite Hs1, Hs2. by left.
  - intros (p1 & c1 & m1 & p2 & c2 & m2 & Hc1 & Hc2 & Hne).
    destruct (decide (text = [])) as [Hnil|Htext].
    { destruct (covers_empty_text _ _ _ Hnil Hc1) as [-> ->].
      destruct (covers_empty_text _ _ _ Hnil Hc2) as [-> ->].
      by destruct Hne. }
    eapply two_elements_length;
      [by eapply (covers_reading _ _ _ _ Htext Hres Hc1)
      |by eapply (covers_reading _ _ _ _ Htext Hres Hc2)|].
    intros Heq. apply (f_equal syllables) in Heq. simpl in Heq.
    injection Heq as Heq.
    destruct (covers_syllable_inj _ _ _ _ _ _ Hc1 Hc2) as [? ?]; [|by destruct Hne].
    by destruct m1, m2; simpl in *; simplify_eq.
Qed.
End ambiguity.

(** The ambiguity flag says that the text can be covered in two ways: it is
    set exactly when two matches at offset [0] consume the whole text that
    differ in the catalog pattern or in the cluster size. *)
Theorem ambiguous_iff_two_covers (self : ThaiReadingOrderAnalyzer)
    (text : list char) (res : Analysis) :
  findThaiGraphemeOrderDomain self text = Ok res →
  is_ambiguous res = true ↔
    ∃ p1 c1 m1 p2 c2 m2,
      covers self text p1 c1 m1 ∧ covers self text p2 c2 m2
      ∧ (p1 ≠ p2 ∨ c1 ≠ c2).
Proof. apply ambiguous_two_covers. Qed.

Lemma ambiguous_iff_two_covers_witness :
  is_ambiguous Sample.elw_analysis = true ↔
    ∃ p1 c1 m1 p2 c2 m2,
      covers Sample.analyzer Sample.elw p1 c1 m1
      ∧ covers Sample.analyzer Sample.elw p2 c2 m2
      ∧ (p1 ≠ p2 ∨ c1 ≠ c2).
Proof.
  apply (ambiguous_iff_two_covers Sample.analyzer Sample.elw Sample.elw_analysis).
  vm_compute. reflexivity.
Defined.

(** ** The catalog as a set *)

Section catalog.
Context (self self' : ThaiReadingOrderAnalyzer) (text : list char).
Hypothesis same_foundation : foundation self = foundation self'.
Hypothesis same_tone_marks : tone_marks self = tone_marks self'.

Lemma foundation_loop_same r found idx fd :
  foundation_loop self text r found idx fd
  = foundation_loop self' text r found idx fd.
Proof.
  revert found idx fd. induction r as [|r IH]; intros found idx fd; [done|].
  simpl. case_decide; [|done].
  destruct (char_at text idx) as [c|]; simpl; [|done].
  rewrite <- same_foundation. case_decide; [|done].
  case_decide; [|apply IH].
  destruct (char_at text (idx + 1)) as [t|]; simpl; [|done].
  rewrite <- same_tone_marks. case_decide; apply IH.
Qed.

Lemma match_foundation_same start count :
  match_foundation self text start count = match_foundation self' text start count.
Proof. unfold match_foundation. case_decide; [done|]. apply foundation_loop_same. Qed.

Lemma match_loop_same cluster symbols text_idx acc :
  match_loop self text cluster symbols text_idx acc
  = match_loop self' text cluster symbols text_idx acc.
Proof.
  revert text_idx acc.
  induction symbols as [|p_char symbols IH]; intros text_idx acc; [done|].
  simpl. case_decide; [done|]. rewrite <- !match_foundation_same.
  case_decide.
  - destruct (match_foundation self text text_idx cluster) as [[fd|]|];
      simpl; [apply IH|done..].
  - case_decide.
    + destruct (match_foundation self text text_idx 1) as [[fd|]|];
        simpl; [apply IH|done..].
    + case_decide; [|done].
      destruct (char_at text text_idx) as [c|]; simpl; [|done].
      case_decide; [apply IH|done].
Qed.

Lemma covers_same p c m :
  (p ∈ vowel_patterns self → p ∈ vowel_patterns self') →
  covers self text p c m → covers self' text p c m.
Proof.
  intros Hp (? & ? & Hm & ?). split_and!; [by apply Hp|done| |done].
  unfold try_match_pattern_with_foundation in *. by rewrite <- match_loop_same.
Qed.
End catalog.

Section catalog_order.
Context (self self' : ThaiReadingOrderAnalyzer) (text : list char).

Lemma readings_syllables_elem res r :
  text ≠ [] →
  findThaiGraphemeOrderDomain self text = Ok res →
  r ∈ syllables <$> readings res ↔
    ∃ p c m, covers self text p c m ∧ r = [syllable_of_match m].
Proof.
  intros Hne Hres. split.
  - intros (rd & -> & Hrd)%list_elem_of_fmap. by eapply reading_covers.
  - intros (p & c & m & Hc & ->). apply list_elem_of_fmap.
    exists (build_reading [syllable_of_match m]). split; [done|].
    by eapply covers_reading.
Qed.

Lemma readings_rebuild res :
  findThaiGraphemeOrderDomain self text = Ok res →
  readings res = build_reading <$> (syllables <$> readings res).
Proof.
  intros Hres. rewrite <- list_fmap_compose.
  rewrite <- (list_fmap_id (readings res)) at 1.
  apply list_fmap_ext. intros i rd Hrd. simpl.
  eapply analysis_reading_built; [done|]. by eapply list_elem_of_lookup_2.
Qed.
End catalog_order.

(** Only the set of patterns matters: two analyzers with the same
    foundation set and tone marks whose catalogs hold the same patterns, in
    any order and with any repetition, give the same readings up to their
    order, and the same ambiguity flag. *)
Theorem catalog_order_is_irrelevant (self self' : ThaiReadingOrderAnalyzer)
    (text : list char) (res res' : Analysis) :
  foundation self = foundation self' →
  tone_marks self = tone_marks self' →
  (∀ p, p ∈ vowel_patterns self ↔ p ∈ vowel_patterns self') →
  findThaiGraphemeOrderDomain self text = Ok res →
  findThaiGraphemeOrderDomain self' text = Ok res' →
  readings res ≡ₚ readings res' ∧ is_ambiguous res = is_ambiguous res'.
Proof.
  intros Hf Ht Hp Hres Hres'.
  assert (readings res ≡ₚ readings res') as Hperm.
  { destruct (decide (text = [])) as [->|Hne].
    { injection Hres as <-. by injection Hres' as <-. }
    rewrite (readings_rebuild _ _ _ Hres), (readings_rebuild _ _ _ Hres').
    apply fmap_Permutation, NoDup_Permutation; [by eapply readings_NoDup..|].
    intros r.
    rewrite (readings_syllables_elem _ _ _ _ Hne Hres),
      (readings_syllables_elem _ _ _ _ Hne Hres').
    split; intros (p & c & m & Hc & ->); exists p, c, m; (split; [|done]).
    - eapply covers_same; [done..|apply Hp|done].
    - eapply covers_same; [done..|apply Hp|done]. }
  split; [done|].
  apply Permutation_length in Hperm.
  pose proof (is_ambiguous_length _ _ _ Hres) as H1.
  pose proof (is_ambiguous_length _ _ _ Hres') as H2.
  rewrite Hperm in H1.
  destruct (is_ambiguous res), (is_ambiguous res'); try done.
  - symmetry. apply H2, H1. done.
  - apply H1, H2. done.
Qed.

Lemma catalog_order_is_irrelevant_witness :
  readings Sample.elw_analysis ≡ₚ readings Sample.elw_shuffled_analysis
  ∧ is_ambiguous Sample.elw_analysis = is_ambiguous Sample.elw_shuffled_analysis.
Proof.
  apply (catalog_order_is_irrelevant Sample.analyzer Sample.shuffled Sample.elw).
  - reflexivity.
  - reflexivity.
  - intros p. unfold Sample.analyzer, Sample.shuffled, init. simpl.
    rewrite !elem_of_cons, !elem_of_nil. tauto.
  - vm_compute. reflexivity.
  - vm_compute. reflexivity.
Defined.

(** ** Characters a match can consume *)

Section consumed_characters.
Context (self : ThaiReadingOrderAnalyzer) (text : list char).

(** Each position of a group is that of a consonant or the one after a
    toned consonant. *)
Lemma layout_positions start n q :
  start ≤ q < consonant_pos self text start n →
  ∃ j, (j < n)%nat
    ∧ (q = consonant_pos self text start j
       ∨ q = consonant_pos self text start j + 1
         ∧ tone_after self text (consonant_pos self text start j) ≠ None).
Proof.
  revert start. induction n as [|n IH]; intros start Hq; simpl in Hq; [lia|].
  destruct (decide (q = start)) as [->|Hne].
  { exists 0%nat. split; [lia|]. by left. }
  pose proof (next_consonant_bounds self text start) as Hb.
  destruct (decide (next_consonant self text start ≤ q)) as [Hge|Hlt].
  - destruct (IH (next_consonant self text start)) as (j & Hj & Hcase); [lia|].
    exists (S j). split; [lia|]. done.
  - exists 0%nat. split; [lia|]. right. simpl. split; [lia|].
    unfold next_consonant in *. destruct (tone_after self text start); [done|lia].
Qed.

Lemma match_foundation_chars start count fd q :
  match_foundation self text start count = Ok (Some fd) →
  q ∈ positions fd →
  ∃ c, text_get text q = Some c ∧ (c ∈ foundation self ∨ c ∈ tone_marks self).
Proof.
  intros Hfd Hq.
  destruct (match_foundation_shape _ _ _ _ _ Hfd) as (Hlen & Hget & Hall & Hpos & _).
  rewrite Hpos in Hq. apply elem_of_seqZ in Hq.
  destruct (layout_positions start count q) as (j & Hj & [->|[-> Ht]]); [lia| |].
  - destruct (lookup_lt_is_Some_2 (consonants fd) j) as [c Hc]; [lia|].
    exists c. split; [by rewrite <- Hget|]. left.
    by eapply Forall_lookup_1 in Hall.
  - destruct (tone_after self text (consonant_pos self text start j)) as [t|] eqn:E;
      [|done].
    apply tone_after_Some in E as (? & ? & _). exists t. auto.
Qed.

Lemma match_loop_chars cluster symbols text_idx acc m q :
  match_loop self text cluster symbols text_idx acc = Ok (Some m) →
  q ∈ m_positions m →
  q ∈ m_positions acc
  ∨ ∃ c, text_get text q = Some c
      ∧ (c ∈ foundation self ∨ c ∈ tone_marks self ∨ c ∈ literals symbols).
Proof.
  revert text_idx acc. unfold literals.
  induction symbols as [|p_char symbols IH]; intros text_idx acc Hm Hq.
  { injection Hm as <-. by left. }
  simpl in Hm. case_decide; [done|]. case_decide as Hx.
  - destruct (match_foundation self text text_idx cluster) as [[fd|]|e'] eqn:Hfd;
      simpl in Hm; [|done..].
    destruct (IH _ _ Hm Hq) as [[?|Hin]%elem_of_app|(c & ? & Hc)]; [by left| |].
    + right. destruct (match_foundation_chars _ _ _ _ Hfd Hin) as (c & ? & ?).
      exists c. split; [done|]. tauto.
    + right. exists c. split; [done|].
      rewrite filter_cons_False by (intros [? _]; done). done.
  - case_decide as Hf.
    + destruct (match_foundation self text text_idx 1) as [[fd|]|e'] eqn:Hfd;
        simpl in Hm; [|done..].
      destruct (IH _ _ Hm Hq) as [[?|Hin]%elem_of_app|(c & ? & Hc)]; [by left| |].
      * right. destruct (match_foundation_chars _ _ _ _ Hfd Hin) as (c & ? & ?).
        exists c. split; [done|]. tauto.
      * right. exists c. split; [done|].
        rewrite filter_cons_False by (intros [_ ?]; done). done.
    + case_decide; [|done].
      destruct (char_at text text_idx) as [c|] eqn:Hc; simpl in Hm; [|done].
      apply char_at_Ok in Hc. case_decide; [|done]. subst p_char.
      rewrite filter_cons_True by done.
      destruct (IH _ _ Hm Hq) as [[?|Hin]%elem_of_app|(c' & ? & Hc')]; [by left| |].
      * apply list_elem_of_singleton in Hin as ->. right. exists c.
        split; [done|]. right. right. by left.
      * right. exists c'. split; [done|].
        destruct Hc' as [?|[?|?]]; [tauto..|]. right. right. by right.
Qed.
End consumed_characters.

(** A character that is unknown to the data makes a text unreadable: when
    the text holds a character that is no foundation character, no tone mark
    and no literal of any pattern of the catalog, the result has no
    reading. *)
Theorem unknown_character_gives_no_reading (self : ThaiReadingOrderAnalyzer)
    (text : list char) (res : Analysis) (i : nat) (c : char) :
  findThaiGraphemeOrderDomain self text = Ok res →
  text !! i = Some c →
  c ∉ foundation self → c ∉ tone_marks self →
  (∀ pattern, pattern ∈ vowel_patterns self → c ∉ literals pattern) →
  readings res = [].
Proof.
  intros Hres Hi Hnf Hnt Hnl.
  destruct (readings res) as [|rd rds] eqn:Hrds; [done|]. exfalso.
  assert (rd ∈ readings res) as Hrd by (rewrite Hrds; by left).
  destruct (analysis_reading_match _ _ _ _ Hres Hrd)
    as (pattern & cluster & m & Hpat & _ & Hm & Hpos & _).
  assert (Z.of_nat i ∈ m_positions m) as Hin.
  { rewrite Hpos. apply elem_of_seqZ. apply lookup_lt_Some in Hi.
    unfold len. lia. }
  destruct (match_loop_chars _ _ _ _ _ _ _ _ Hm Hin)
    as [?%elem_of_nil|(c' & Hget & Hc')]; [done|].
  unfold text_get in Hget. rewrite decide_True, Nat2Z.id in Hget by lia.
  assert (c' = c) as -> by congruence.
  destruct Hc' as [?|[?|?]]; [done..|]. by eapply Hnl.
Qed.

Lemma unknown_character_gives_no_reading_witness :
  readings Sample.ya_z_analysis = [].
Proof.
  apply (unknown_character_gives_no_reading Sample.analyzer Sample.ya_z
           Sample.ya_z_analysis 2 122%N).
  - vm_compute. reflexivity.
  - reflexivity.
  - apply (bool_decide_unpack _). vm_compute. exact I.
  - apply (bool_decide_unpack _). vm_compute. exact I.
  - intros pattern Hp. unfold Sample.analyzer, init in Hp. simpl in Hp.
    rewrite !elem_of_cons, elem_of_nil in Hp.
    destruct Hp as [->|[->|[->|[->|[->|[]]]]]];
      apply (bool_decide_unpack _); vm_compute; exact I.
Defined.

(** ** The reading order shown by the labeling application *)

Section labeling.
Context (self : ThaiReadingOrderAnalyzer) (text : list char).

Lemma container_render_plain start count fd :
  match_foundation self text start count = Ok (Some fd) →
  render_foundation (Some fd) = consonants fd ↔ tone fd = None.
Proof.
  intros Hfd. split; [|apply render_untoned].
  intros Hr. destruct (match_foundation_shape _ _ _ _ _ Hfd) as (Hlen & _).
  destruct (match_foundation_tone _ _ _ _ _ Hfd)
    as [(_ & ? & _)|(j & t & Hj & _ & _ & Htone & Hown)]; [done|].
  rewrite (render_toned fd t j) in Hr by (done || lia).
  apply (f_equal length) in Hr.
  rewrite !length_app, length_take, length_drop in Hr.
  change (length [t]) with 1%nat in Hr. lia.
Qed.

Lemma container_render_nonempty start count fd :
  (1 ≤ count)%nat →
  match_foundation self text start count = Ok (Some fd) →
  render_foundation (Some fd) ≠ [].
Proof.
  intros Hc Hfd Hnil.
  destruct (match_foundation_shape _ _ _ _ _ Hfd) as (Hlen & _).
  destruct (match_foundation_render _ _ _ _ _ Hfd)
    as [[_ Hr]|(j & t & _ & _ & Hr)]; rewrite Hr in Hnil.
  - rewrite Hnil in Hlen. simpl in Hlen. lia.
  - apply (f_equal length) in Hnil. rewrite !length_app in Hnil.
    change (length [t]) with 1%nat in Hnil. simpl in Hnil. lia.
Qed.

(** The containers of a match the search makes. *)
Lemma searched_match_containers pattern cluster start used m :
  cluster ∈ cluster_sizes text pattern →
  try_match_pattern_with_foundation self text start pattern used cluster
  = Ok (Some m) →
  (∀ fd, m_foundation m = Some fd →
     ∃ i, (1 ≤ cluster)%nat ∧ match_foundation self text i cluster = Ok (Some fd))
  ∧ (∀ fd, m_final m = Some fd →
       ∃ i, match_foundation self text i 1 = Ok (Some fd)).
Proof.
  intros Hcl Hm. split.
  - intros fd Hfd.
    destruct (try_match_foundation _ _ _ _ _ _ _ Hm)
      as [[? _]|(i & fd' & Hs & Hfrom)]; [congruence|].
    assert (fd' = fd) as -> by congruence. exists i. split; [|done].
    destruct (cluster_sizes_spec _ _ _ Hcl) as [?|Hnx]; [done|].
    apply (match_loop_foundation_unchanged _ _ _ _ _ _ _ Hnx) in Hm.
    simpl in Hm. congruence.
  - intros fd Hfd.
    destruct (try_match_final _ _ _ _ _ _ _ Hm)
      as [?|(i & fd' & Hs & Hfrom)]; [congruence|].
    assert (fd' = fd) as -> by congruence. by exists i.
Qed.

Lemma labeling_order_of_match pattern cluster start used m :
  cluster ∈ cluster_sizes text pattern →
  try_match_pattern_with_foundation self text start pattern used cluster
  = Ok (Some m) →
  sd_reading_order (syl_data (syllable_of_match m))
  = syllable_tokens (syllable_of_match m)
  ↔ ∀ fd, m_foundation m = Some fd ∨ m_final m = Some fd → tone fd = None.
Proof.
  intros Hcl Hm.
  destruct (searched_match_containers _ _ _ _ _ Hcl Hm) as [Hfo Hfi].
  unfold syl_data, syllable_tokens.
  cbn [sd_reading_order syllable_of_match syl_foundation syl_vowel syl_final].
  assert (∀ (a b : list char) (v w w' : list (list char)),
            [a] ++ v ++ w = [b] ++ v ++ w' ↔ a = b ∧ w = w') as Happ1.
  { intros a b v w w'. split; [|by intros [-> ->]].
    intros [= -> Hrest]. by apply app_inv_head in Hrest. }
  assert (∀ (v w w' : list (list char)),
            [] ++ v ++ w = [] ++ v ++ w' ↔ w = w') as Happ0.
  { intros v w w'. split; [|by intros ->]. simpl. apply app_inv_head. }
  assert (∀ fd, m_final m = Some fd →
            ([consonants fd] = [render_foundation (Some fd)] ↔ tone fd = None))
    as Hfinal.
  { intros fd Hfd. destruct (Hfi fd Hfd) as [i Hi].
    rewrite <- (container_render_plain _ _ _ Hi). split; [by intros [= ->]|].
    by intros ->. }
  destruct (m_foundation m) as [fo|] eqn:Efo.
  - destruct (Hfo fo eq_refl) as (i & Hc & Hi).
    rewrite (decide_False (P:=render_foundation (Some fo) = []))
      by by eapply container_render_nonempty.
    rewrite Happ1.
    destruct (m_final m) as [fi|] eqn:Efi.
    + rewrite (Hfinal fi eq_refl). split.
      * intros [Hr ?] fd [[= <-]|[= <-]]; [|done].
        by apply (container_render_plain _ _ _ Hi).
      * intros Hall. split; [symmetry|]; [|by apply Hall; right].
        apply (container_render_plain _ _ _ Hi), Hall. by left.
    + split.
      * intros [Hr _] fd [[= <-]|[=]]. by apply (container_render_plain _ _ _ Hi).
      * intros Hall. split; [symmetry|done].
        apply (container_render_plain _ _ _ Hi), Hall. by left.
  - change (render_foundation None) with ([] : list char).
    rewrite (decide_True (P:=([] : list char) = [])) by done. rewrite Happ0.
    destruct (m_final m) as [fi|] eqn:Efi.
    + rewrite (Hfinal fi eq_refl). split.
      * by intros ? fd [[=]|[= <-]].
      * intros Hall. apply Hall. by right.
    + split; [|done]. by intros _ fd [[=]|[=]].
Qed.
End labeling.

(** The labeling application rebuilds the reading order of a syllable from
    the consonants of its containers alone: for a syllable of a returned
    reading it shows the tokens of the analyzer exactly when no container of
    the syllable carries a tone; a tone mark is left out of what it shows. *)
Theorem labeling_order_drops_tone_marks (self : ThaiReadingOrderAnalyzer)
    (text : list char) (res : Analysis) (rd : Reading) (syllable : Syllable) :
  findThaiGraphemeOrderDomain self text = Ok res → rd ∈ readings res →
  syllable ∈ syllables rd →
  sd_reading_order (syl_data syllable) = syllable_tokens syllable
  ↔ ∀ fd, syl_foundation syllable = Some fd ∨ syl_final syllable = Some fd →
          tone fd = None.
Proof.
  intros Hres Hrd Hsyl.
  destruct (analysis_reading_match _ _ _ _ Hres Hrd)
    as (pattern & cluster & m & _ & Hcl & Hm & _ & Hrd').
  rewrite Hrd' in Hsyl. apply list_elem_of_singleton in Hsyl as ->.
  by eapply labeling_order_of_match.
Qed.

Lemma labeling_order_drops_tone_marks_witness :
  sd_reading_order (syl_data (syllable_of_match Sample.yaa_match))
  = syllable_tokens (syllable_of_match Sample.yaa_match)
  ↔ ∀ fd, syl_foundation (syllable_of_match Sample.yaa_match) = Some fd
          ∨ syl_final (syllable_of_match Sample.yaa_match) = Some fd →
          tone fd = None.
Proof.
  apply (labeling_order_drops_tone_marks Sample.analyzer Sample.yaa
           Sample.yaa_analysis
           (build_reading [syllable_of_match Sample.yaa_match])).
  - vm_compute. reflexivity.
  - left.
  - left.
Defined.

Example labeling_order_of_yaa :
  sd_reading_order (syl_data (syllable_of_match Sample.yaa_match))
  = [[Sample.o; Sample.yo]; [Sample.aa]]
  ∧ syllable_tokens (syllable_of_match Sample.yaa_match)
    = [[Sample.o; Sample.yo; Sample.mai_ek]; [Sample.aa]].
Proof. split; reflexivity. Qed.

(** ** The shape of a match *)

Section match_shape.
Context (self : ThaiReadingOrderAnalyzer) (text : list char).

Lemma match_loop_final_present cluster symbols text_idx acc m :
  sym_f ∈ symbols →
  match_loop self text cluster symbols text_idx acc = Ok (Some m) →
  ∃ i fd, m_final m = Some fd ∧ match_foundation self text i 1 = Ok (Some fd).
Proof.
  revert text_idx acc.
  induction symbols as [|p_char symbols IH]; intros text_idx acc Hin Hm.
  { by apply elem_of_nil in Hin. }
  simpl in Hm. case_decide; [done|]. case_decide as Hx.
  - destruct (match_foundation self text text_idx cluster) as [[fd|]|e'];
      simpl in Hm; [|done..].
    apply elem_of_cons in Hin as [Hf|Hin]; [by subst p_char|]. by eapply IH.
  - case_decide as Hf.
    + destruct (match_foundation self text text_idx 1) as [[fd|]|e'] eqn:Hfd;
        simpl in Hm; [|done..].
      destruct (decide (sym_f ∈ symbols)) as [Hin'|Hnin]; [by eapply IH|].
      apply (match_loop_final_unchanged _ _ _ _ _ _ _ Hnin) in Hm. simpl in Hm.
      by exists text_idx, fd.
    + case_decide; [|done].
      destruct (char_at text text_idx) as [c|]; simpl in Hm; [|done].
      case_decide; [|done].
      apply elem_of_cons in Hin as [?|Hin]; [done|]. by eapply IH.
Qed.

Lemma match_containers_present start pattern used cluster m :
  try_match_pattern_with_foundation self text start pattern used cluster
  = Ok (Some m) →
  (is_Some (m_foundation m) ↔ sym_x ∈ pattern)
  ∧ (is_Some (m_final m) ↔ sym_f ∈ pattern)
  ∧ (∀ fd, m_foundation m = Some fd → length (consonants fd) = cluster)
  ∧ (∀ fd, m_final m = Some fd → length (consonants fd) = 1%nat).
Proof.
  intros Hm. split_and!.
  - split.
    + intros [fd Hfd]. destruct (decide (sym_x ∈ pattern)) as [|Hnx]; [done|].
      apply (match_loop_foundation_unchanged _ _ _ _ _ _ _ Hnx) in Hm.
      simpl in Hm. congruence.
    + intros Hx. destruct (try_match_foundation _ _ _ _ _ _ _ Hm)
        as [[_ ?]|(i & fd & -> & _)]; [done|by eexists].
  - split.
    + intros [fd Hfd]. destruct (decide (sym_f ∈ pattern)) as [|Hnf]; [done|].
      apply (match_loop_final_unchanged _ _ _ _ _ _ _ Hnf) in Hm.
      simpl in Hm. congruence.
    + intros Hf. destruct (match_loop_final_present _ _ _ _ _ Hf Hm)
        as (i & fd & -> & _). by eexists.
  - intros fd Hfd. destruct (try_match_foundation _ _ _ _ _ _ _ Hm)
      as [[? _]|(i & fd' & Hs & Hfrom)]; [congruence|].
    assert (fd' = fd) as -> by congruence.
    by apply match_foundation_shape in Hfrom as (? & _).
  - intros fd Hfd. destruct (try_match_final _ _ _ _ _ _ _ Hm)
      as [?|(i & fd' & Hs & Hfrom)]; [congruence|].
    assert (fd' = fd) as -> by congruence.
    by apply match_foundation_shape in Hfrom as (? & _).
Qed.
End match_shape.

(** A match has a foundation container exactly when its pattern holds
    ['x'] and a final container exactly when it holds ['f']; the foundation
    has as many consonants as the cluster size asked for, the final has
    one. *)
Theorem containers_follow_placeholders (self : ThaiReadingOrderAnalyzer)
    (text : list char) (start : Z) (pattern : list char) (used : gset Z)
    (cluster : nat) (m : Match) :
  try_match_pattern_with_foundation self text start pattern used cluster
  = Ok (Some m) →
  (is_Some (m_foundation m) ↔ sym_x ∈ pattern)
  ∧ (is_Some (m_final m) ↔ sym_f ∈ pattern)
  ∧ (∀ fd, m_foundation m = Some fd → length (consonants fd) = cluster)
  ∧ (∀ fd, m_final m = Some fd → length (consonants fd) = 1%nat).
Proof. apply match_containers_present. Qed.

Lemma containers_follow_placeholders_witness :
  (is_Some (m_foundation Sample.yaa_match) ↔ sym_x ∈ [sym_x; Sample.aa])
  ∧ (is_Some (m_final Sample.yaa_match) ↔ sym_f ∈ [sym_x; Sample.aa])
  ∧ (∀ fd, m_foundation Sample.yaa_match = Some fd →
       length (consonants fd) = 2%nat)
  ∧ (∀ fd, m_final Sample.yaa_match = Some fd → length (consonants fd) = 1%nat).
Proof.
  apply (containers_follow_placeholders Sample.analyzer Sample.yaa 0
           [sym_x; Sample.aa] ∅ 2).
  vm_compute. reflexivity.
Defined.

(** ** The order of the readings *)

Section binds.
Context {A B C : Type}.

Lemma for_each_bind (l : list A) (body : A → result (list B)) (g : A → list B) :
  (∀ a, a ∈ l → body a = Ok (g a)) → for_each l body = Ok (l ≫= g).
Proof.
  induction l as [|a l IH]; intros Hbody; [done|].
  simpl. rewrite Hbody by by left. simpl. rewrite IH; [done|].
  intros a' ?. apply Hbody. by right.
Qed.

Lemma bind_ext_in (f g : A → list B) (l : list A) :
  (∀ a, a ∈ l → f a = g a) → l ≫= f = l ≫= g.
Proof. intros Hfg. apply Forall_bind_ext, Forall_forall. done. Qed.

Lemma bind_bind (f : A → list B) (g : B → list C) (l : list A) :
  (l ≫= f) ≫= g = l ≫= (λ a, f a ≫= g).
Proof.
  induction l as [|a l IH]; [done|].
  by rewrite !bind_cons, bind_app, IH.
Qed.

Lemma bind_all_nil (f : A → list B) (l : list A) :
  (∀ a, a ∈ l → f a = []) → l ≫= f = [].
Proof.
  induction l as [|a l IH]; intros Hf; [done|].
  rewrite bind_cons, Hf by by left. simpl. apply IH.
  intros a' ?. apply Hf. by right.
Qed.

Lemma bind_only_at (f : A → list B) (l : list A) (a : A) :
  NoDup l → a ∈ l → (∀ a', a' ∈ l → a' ≠ a → f a' = []) → l ≫= f = f a.
Proof.
  induction 1 as [|x l Hx Hnd IH]; intros Ha Hf.
  { by apply elem_of_nil in Ha. }
  rewrite bind_cons. apply elem_of_cons in Ha as [->|Ha].
  - rewrite bind_all_nil; [by rewrite (right_id_L [] (++))|].
    intros a' Ha'. apply Hf; [by right|]. by intros ->.
  - rewrite (Hf x); [|by left|by intros ->]. simpl. apply IH; [done|].
    intros a' ? ?. apply Hf; [by right|done].
Qed.
End binds.

Section ordered_readings.
Context (self : ThaiReadingOrderAnalyzer) (text : list char).
Hypothesis text_not_empty : text ≠ [].

Let attempt (pattern : list char) (start : Z) (cluster : nat) : list Match :=
  match try_match_pattern_with_foundation self text start pattern ∅ cluster with
  | Ok (Some m) => [m]
  | _ => []
  end.

Let emit (m : Match) : list (list Syllable) :=
  if decide (0 ∈ m_positions m) then
    if decide (size ((∅ : gset Z) ∪ list_to_set (m_positions m)) = length text)
    then [[syllable_of_match m]]
    else []
  else [].

Lemma len_positive : 0 < len text.
Proof.
  assert (length text ≠ 0%nat) by (intros ?%nil_length_inv; done).
  unfold len. lia.
Qed.

Lemma find_pattern_matches_unused pattern :
  find_pattern_matches self text pattern ∅
  = Ok (seqZ (-5) (len text + 5) ≫= λ start,
          cluster_sizes text pattern ≫= attempt pattern start).
Proof.
  rewrite find_pattern_matches_alt. apply for_each_bind. intros start _.
  apply for_each_bind. intros cluster _. unfold attempt.
  destruct (try_match_pattern_with_foundation self text start pattern ∅ cluster)
    as [[m|]|e] eqn:Hm; simpl; [|done|by apply try_match_no_raise in Hm].
  assert (conflicts ∅ (m_positions m) = false) as ->; [|done].
  apply conflicts_false. intros p _. apply not_elem_of_empty.
Qed.

Lemma explore_second_level fuel pattern ms m :
  (length text ≤ S fuel)%nat →
  find_pattern_matches self text pattern ∅ = Ok ms → m ∈ ms →
  0 ∈ m_positions m →
  explore_segmentations self text (S fuel) 0 (∅ ∪ list_to_set (m_positions m))
    ([] ++ [syllable_of_match m])
  = Ok (if decide (size ((∅ : gset Z) ∪ list_to_set (m_positions m))
                   = length text)
        then [[syllable_of_match m]] else []).
Proof.
  intros Hfuel Hms Hm H0. case_decide as Hsize.
  - rewrite explore_terminal by done. by rewrite decide_True.
  - destruct (transition_progress _ _ _ _ _ _ _ Hms Hm H0)
      as (_ & _ & _ & Hless & _).
    pose proof (subseteq_size (all_positions text ∖ ∅) (all_positions text)) as Hle.
    rewrite size_all_positions in Hle.
    assert (all_positions text ∖ ∅ ⊆ all_positions text) as Hsub
      by (intros q [? _]%elem_of_difference; done).
    specialize (Hle Hsub).
    destruct (explore_terminates self text (S fuel) 0
                (∅ ∪ list_to_set (m_positions m)) ([] ++ [syllable_of_match m]))
      as [rs Hrs]; [lia|].
    rewrite Hrs. f_equal. destruct rs as [|r rs]; [done|].
    destruct (explore_emits _ _ _ _ _ _ _ r Hrs ltac:(by left))
      as [_ [[_ ?]|[? _]]]; done.
Qed.

Lemma all_readings_bind :
  all_readings self text
  = Ok (vowel_patterns self ≫= λ pattern,
          (seqZ (-5) (len text + 5) ≫= λ start,
             cluster_sizes text pattern ≫= attempt pattern start) ≫= emit).
Proof.
  unfold all_readings.
  assert (∃ n, length text = S n) as [n Hl].
  { destruct (length text) as [|n] eqn:Hl; [|by exists n].
    by apply nil_length_inv in Hl. }
  rewrite Hl.
  change (explore_segmentations self text (S (S n)) 0 ∅ [])
    with (if decide (size (∅ : gset Z) = length text) then
            if decide (length ([] : list Syllable) = 1%nat) then Ok [[]] else Ok []
          else
            let pos' := skip_used (len text) ∅ (Z.to_nat (len text - 0)) 0 in
            if decide (len text ≤ pos') then Ok []
            else
              for_each (vowel_patterns self) (λ pattern,
                let* matches := find_pattern_matches self text pattern ∅ in
                for_each matches (λ m,
                  if decide (pos' ∈ m_positions m) then
                    explore_segmentations self text (S n) 0
                      (∅ ∪ list_to_set (m_positions m))
                      ([] ++ [syllable_of_match m])
                  else Ok []))).
  rewrite decide_False by (rewrite size_empty; lia).
  rewrite skip_used_free by apply not_elem_of_empty. cbv zeta.
  pose proof len_positive. rewrite decide_False by lia.
  apply for_each_bind. intros pattern _.
  rewrite find_pattern_matches_unused. simpl.
  apply for_each_bind. intros m Hm. unfold emit. case_decide; [|done].
  eapply explore_second_level; [lia|apply find_pattern_matches_unused|done..].
Qed.

Lemma emit_attempt pattern start cluster :
  cluster ∈ cluster_sizes text pattern →
  attempt pattern start cluster ≫= emit
  = if decide (start = 0) then
      match try_match_pattern_with_foundation self text 0 pattern ∅ cluster with
      | Ok (Some m) =>
          if decide (m_positions m = seqZ 0 (len text))
          then [[syllable_of_match m]]
          else []
      | _ => []
      end
    else [].
Proof.
  intros Hcl%cluster_sizes_spec. unfold attempt. pose proof len_positive as Hlen.
  assert (∀ m, try_match_pattern_with_foundation self text start pattern ∅ cluster
               = Ok (Some m) →
               emit m = if decide (start = 0) then
                          if decide (m_positions m = seqZ 0 (len text))
                          then [[syllable_of_match m]] else []
                        else []) as Hemit.
  { intros m Hm.
    destruct (try_match_positions _ _ _ _ _ _ _ Hcl Hm) as (k & Hk & Hpos & Hnil & Hin).
    unfold emit. rewrite Hpos.
    destruct (decide (0 ∈ seqZ start k)) as [H0%elem_of_seqZ|H0].
    - destruct Hin as [? ?]; [intros Hp; specialize (Hnil Hp); lia|].
      assert (start = 0) as -> by lia. rewrite (decide_True (P:=0 = 0)) by done.
      rewrite (left_id_L ∅ (∪)), size_list_to_set, length_seqZ by apply NoDup_seqZ.
      destruct (decide (k = len text)) as [->|Hk'].
      + rewrite !decide_True; [done..|]. unfold len. lia.
      + rewrite !decide_False; [done| |unfold len in *; lia].
        intros Heq. apply (f_equal length) in Heq. rewrite !length_seqZ in Heq.
        unfold len in *. lia.
    - case_decide as Hs; [|done]. subst start.
      rewrite decide_False; [done|]. intros Heq. apply H0. rewrite Heq.
      apply elem_of_seqZ. lia. }
  destruct (decide (start = 0)) as [->|Hne].
  - destruct (try_match_pattern_with_foundation self text 0 pattern ∅ cluster)
      as [[m|]|e] eqn:Hm; [|done..].
    by rewrite bind_singleton, (Hemit m eq_refl).
  - destruct (try_match_pattern_with_foundation self text start pattern ∅ cluster)
      as [[m|]|e] eqn:Hm; [|done..].
    by rewrite bind_singleton, (Hemit m eq_refl).
Qed.

Lemma pattern_readings_bind pattern :
  (seqZ (-5) (len text + 5) ≫= λ start,
     cluster_sizes text pattern ≫= attempt pattern start) ≫= emit
  = pattern_readings self text pattern.
Proof.
  rewrite bind_bind.
  rewrite (bind_only_at _ _ 0);
    [|apply NoDup_seqZ|apply elem_of_seqZ; pose proof len_positive; lia|].
  - rewrite bind_bind. unfold pattern_readings. apply bind_ext_in.
    intros cluster Hcl. rewrite emit_attempt by done. by rewrite decide_True.
  - intros start _ Hne. rewrite bind_bind. apply bind_all_nil.
    intros cluster Hcl. rewrite emit_attempt by done. by rewrite decide_False.
Qed.

Lemma all_readings_exact :
  all_readings self text
  = Ok (vowel_patterns self ≫= pattern_readings self text).
Proof.
  rewrite all_readings_bind. f_equal. apply bind_ext_in.
  intros pattern _. apply pattern_readings_bind.
Qed.

Lemma pattern_readings_elem pattern r :
  pattern ∈ vowel_patterns self →
  r ∈ pattern_readings self text pattern ↔
    ∃ c m, covers self text pattern c m ∧ r = [syllable_of_match m].
Proof.
  intros Hp. unfold pattern_readings. rewrite list_elem_of_bind. split.
  - intros (c & Hr & Hc).
    destruct (try_match_pattern_with_foundation self text 0 pattern ∅ c)
      as [[m|]|e] eqn:Hm; [|by apply elem_of_nil in Hr..].
    case_decide; [|by apply elem_of_nil in Hr].
    apply list_elem_of_singleton in Hr as ->. exists c, m. by repeat split.
  - intros (c & m & (_ & Hc & Hm & Hpos) & ->). exists c. split; [|done].
    rewrite Hm, decide_True by done. by left.
Qed.

Lemma raw_NoDup :
  NoDup (vowel_patterns self) →
  NoDup (vowel_patterns self ≫= pattern_readings self text).
Proof.
  intros Hnd. apply NoDup_bind; [| |done].
  - intros p1 p2 r Hp1 Hp2 Hr1 Hr2.
    apply (pattern_readings_elem _ _ Hp1) in Hr1 as (c1 & m1 & Hc1 & ->).
    apply (pattern_readings_elem _ _ Hp2) in Hr2 as (c2 & m2 & Hc2 & Heq).
    apply (f_equal head), (inj Some) in Heq.
    by destruct (covers_syllable_inj _ _ _ _ _ _ _ _ Hc1 Hc2 Heq).
  - intros p Hp. unfold pattern_readings. apply NoDup_bind.
    + intros c1 c2 r Hc1 Hc2 Hr1 Hr2.
      destruct (try_match_pattern_with_foundation self text 0 p ∅ c1)
        as [[m1|]|] eqn:Hm1; [|by apply elem_of_nil in Hr1..].
      destruct (try_match_pattern_with_foundation self text 0 p ∅ c2)
        as [[m2|]|] eqn:Hm2; [|by apply elem_of_nil in Hr2..].
      destruct (decide (m_positions m1 = seqZ 0 (len text)));
        [|by apply elem_of_nil in Hr1].
      destruct (decide (m_positions m2 = seqZ 0 (len text)));
        [|by apply elem_of_nil in Hr2].
      apply list_elem_of_singleton in Hr1 as ->.
      apply list_elem_of_singleton in Hr2.
      apply (f_equal head), (inj Some) in Hr2.
      by destruct (covers_syllable_inj self text p c1 m1 p c2 m2).
    + intros c _.
      destruct (try_match_pattern_with_foundation self text 0 p ∅ c)
        as [[m|]|]; [|constructor..].
      case_decide; [apply NoDup_singleton|constructor].
    + unfold cluster_sizes. case_decide; [apply NoDup_seq|apply NoDup_singleton].
Qed.

Lemma unique_loop_fresh seen (raw : list (list Syllable)) :
  NoDup raw → (∀ r, r ∈ raw → r ∉ seen) →
  unique_loop seen raw = build_reading <$> raw.
Proof.
  intros Hnd. revert seen. induction Hnd as [|r raw Hr Hnd IH]; intros seen Hseen;
    [done|].
  rewrite fmap_cons. cbn [unique_loop].
  rewrite decide_False by (apply Hseen; by left). f_equal. apply IH.
  intros r' Hr' [->|?]%elem_of_cons; [done|].
  by apply (Hseen r'); [right|].
Qed.

Lemma readings_exact res :
  NoDup (vowel_patterns self) →
  findThaiGraphemeOrderDomain self text = Ok res →
  readings res
  = build_reading <$> (vowel_patterns self ≫= pattern_readings self text).
Proof.
  intros Hnd Hres.
  destruct (analysis_nonempty _ _ _ text_not_empty Hres) as (raw & Hraw & ->).
  simpl. rewrite all_readings_exact in Hraw. injection Hraw as <-.
  apply unique_loop_fresh; [by apply raw_NoDup|].
  by intros r _ ?%elem_of_nil.
Qed.
End ordered_readings.

(** The readings come in the order of the catalog: with a catalog without
    repetition, the readings of a non-empty text are, pattern after pattern
    in catalog order and cluster size after cluster size in increasing
    order, the syllables of the matches at offset [0] that consume the whole
    text; nothing else is listed and nothing is dropped. *)
Theorem readings_follow_catalog_order (self : ThaiReadingOrderAnalyzer)
    (text : list char) (res : Analysis) :
  text ≠ [] →
  NoDup (vowel_patterns self) →
  findThaiGraphemeOrderDomain self text = Ok res →
  readings res
  = build_reading <$> (vowel_patterns self ≫= pattern_readings self text).
Proof.
  intros Htext Hnd Hres. exact (readings_exact self text Htext res Hnd Hres).
Qed.

Lemma readings_follow_catalog_order_witness :
  readings Sample.elw_analysis
  = build_reading
      <$> (vowel_patterns Sample.analyzer
             ≫= pattern_readings Sample.analyzer Sample.elw).
Proof.
  apply (readings_follow_catalog_order Sample.analyzer Sample.elw).
  - discriminate.
  - apply (bool_decide_unpack _). vm_compute. exact I.
  - vm_compute. reflexivity.
Defined.
